(** * Airseeker: update-necessity engine, registry batch scheduler and
      signed-data fetcher

    A shallow embedding of the TypeScript sources of the keeper:
    - [constants.ts], [utils.ts]: numeric constants, [abs], [decodeBeaconValue];
    - the deviation-check module: [calculateDeviationPercentage],
      [calculateMedian], [isOnChainDataFresh], [isDataFeedUpdatable];
    - the update-feeds module: [runUpdateFeed] and its batch plan, [mergeUrls];
    - the signed-API fetcher: [runDataFetcher], [stopDataFetcher].

    JavaScript [bigint] values are unbounded integers and are modelled by [Z];
    [number] values that may be fractional (intervals, batch counts) are
    modelled by exact rationals [Q].  Arrays that are passed by reference live
    in an explicit heap.  A thrown exception is an explicit [Throw] result. *)

From Stdlib Require Import ZArith QArith Qround Qminmax Qfield Lia Sorting.Sorted.
From stdpp Require Import gmap strings list sorting.

Close Scope Q_scope.
Local Open Scope Z_scope.

(** ** The JavaScript runtime fragment used by the sources *)

Module Js.

Inductive error :=
| Error (message : string)
| RangeError (message : string)
| TypeError (message : string).

(** The outcome of evaluating an expression: a value or a thrown error. *)
Inductive result (A : Type) :=
| Ok (a : A)
| Throw (e : error).
Arguments Ok {A} a.
Arguments Throw {A} e.

Definition bind {A B} (r : result A) (k : A -> result B) : result B :=
  match r with
  | Ok a => k a
  | Throw e => Throw e
  end.

Definition is_ok {A} (r : result A) : bool :=
  match r with Ok _ => true | Throw _ => false end.

(** [a / b] on bigints: truncates toward zero, throws on a zero divisor. *)
Definition bigint_div (a b : Z) : result Z :=
  if b =? 0 then Throw (RangeError "Division by zero") else Ok (Z.quot a b).

(** The member names the sources look up on a primitive bigint. *)
Inductive bigint_member := pow | mul | sub.

Definition bigint_member_name (member : bigint_member) : string :=
  match member with pow => "pow" | mul => "mul" | sub => "sub" end.

(** [receiver.member(argument)] on a primitive bigint.  The methods of
    [BigInt.prototype] are [toString], [toLocaleString] and [valueOf]: the
    lookup of [pow], [mul] or [sub] gives [undefined], and calling it throws
    a [TypeError], whatever the receiver and the argument are. *)
Definition bigint_member_call (receiver : Z) (member : bigint_member)
    (argument : Z) : result Z :=
  Throw (TypeError ("BigInt(...)." +:+ bigint_member_name member
                    +:+ " is not a function")).

(** [Math.floor(ms / 1000)] for an integral millisecond clock value.  Every
    value [Date.now()] can return is below 8.64e15, where the double
    quotient is within 2^-11 of the exact one and an inexact quotient is at
    least 1/1000 away from an integer, so the floor is the exact one. *)
Definition floor_div_1000 (ms : Z) : Z := ms / 1000.

(** *** Arrays

    An array is an object on the heap; a variable of array type holds its
    location, so two variables may name the same array. *)
Definition loc := nat.
Abbreviation heap := (gmap loc (list Z)).

(** [[...arr]]: a new array with the elements of [arr]. *)
Definition array_spread (xs : list Z) (h : heap) : loc * heap :=
  let l := fresh (dom h) in (l, <[l := xs]> h).

(** [arr[i]]: [None] stands for [undefined]. *)
Definition array_get (xs : list Z) (i : Z) : option Z :=
  if i <? 0 then None else xs !! Z.to_nat i.

(** [Array.prototype.sort(compareFn)], a stable sort: [x] stays in front
    of [y] unless [compareFn(x, y) > 0]. *)
Fixpoint sort_insert (compareFn : Z -> Z -> Z) (x : Z) (l : list Z) : list Z :=
  match l with
  | [] => [x]
  | y :: l' =>
      if compareFn x y <=? 0 then x :: y :: l'
      else y :: sort_insert compareFn x l'
  end.

Definition sorted_with (compareFn : Z -> Z -> Z) (l : list Z) : list Z :=
  foldr (sort_insert compareFn) [] l.

(** The sort is in place: the array at [a] is overwritten, and [a] itself
    is the value of the call. *)
Definition array_sort (compareFn : Z -> Z -> Z) (a : loc) (h : heap) : heap :=
  alter (sorted_with compareFn) a h.

Inductive level := Debug | Info | Warn | Err.

Record log_entry := LogEntry { log_level : level; log_message : string }.

End Js.

Import Js.

#[export] Instance result_ret : MRet result := @Ok.
#[export] Instance result_bind : MBind result :=
  fun A B k r => Js.bind r k.

(** ** constants.ts *)

Module Constants.

(** [HUNDRED_PERCENT = 1e8]; an integral number, so [BigInt(HUNDRED_PERCENT)]
    is the same integer. *)
Definition HUNDRED_PERCENT : Z := 100000000.

(** [BigInt(2).pow(BigInt(223)).mul(BigInt(-1))], commented as Solidity
    type(int224).min.  [BigInt(2)] is the primitive bigint 2; the
    initializer calls a member it does not have. *)
Definition INT224_MIN : result Z :=
  power ← bigint_member_call 2 pow 223;
  bigint_member_call power mul (-1).

(** [BigInt(2).pow(BigInt(223)).sub(BigInt(1))], commented as Solidity
    type(int224).max. *)
Definition INT224_MAX : result Z :=
  power ← bigint_member_call 2 pow 223;
  bigint_member_call power sub 1.

(** Evaluating the module, as an import of it does: the declarations are
    initialized in source order, and the first throw ends the evaluation.
    The value is the pair of the two bounds the module exports. *)
Definition evaluate : result (Z * Z) :=
  min ← INT224_MIN;
  max ← INT224_MAX;
  Ok (min, max).

(** Modelled from the spec: the declaration of [UINT256_MAX], imported by
    the deviation check from the constants module, is not part of the
    sources at hand.  The specification calls the value returned for a zero
    reference denominator the maximal deviation; the constant is the
    largest unsigned 256-bit integer its name denotes. *)
Definition UINT256_MAX : Z := 2 ^ 256 - 1.

End Constants.

(** ** The ABI coder of the ethers library, for a single [int256] *)

Module Ethers.

Definition byte_to_Z (b : Byte.byte) : Z := Z.of_N (Byte.to_N b).

Definition byte_of_Z (z : Z) : Byte.byte :=
  default Byte.x00 (Byte.of_N (Z.to_N z)).

(** The unsigned integer a big-endian byte sequence denotes. *)
Definition be_to_Z (bs : list Byte.byte) : Z :=
  fold_left (fun acc b => acc * 256 + byte_to_Z b) bs 0.

(** The [n] low-order bytes of [u], most significant first. *)
Fixpoint be_of_Z (n : nat) (u : Z) : list Byte.byte :=
  match n with
  | O => []
  | S n' => be_of_Z n' (u / 256) ++ [byte_of_Z (u mod 256)]
  end.

(** [fromTwos(u, width)]: the signed reading of an unsigned word. *)
Definition fromTwos (width : Z) (u : Z) : Z :=
  if u <? 2 ^ (width - 1) then u else u - 2 ^ width.

(** [toTwos(v, width)] *)
Definition toTwos (width : Z) (v : Z) : Z := v mod 2 ^ width.

(** [AbiCoder.defaultAbiCoder().decode(['int256'], data)[0]]: the first
    32-byte word of [data], read as a two's complement integer; shorter
    data is rejected.  [data] is the byte sequence the hex string spells. *)
Definition abi_decode_int256 (data : list Byte.byte) : result Z :=
  if (length data <? 32)%nat then Throw (Error "data out-of-bounds")
  else Ok (fromTwos 256 (be_to_Z (take 32 data))).

(** [AbiCoder.defaultAbiCoder().encode(['int256'], [v])] *)
Definition abi_encode_int256 (v : Z) : list Byte.byte :=
  be_of_Z 32 (toTwos 256 v).

End Ethers.

(** ** utils.ts *)

Module Utils.
Import Constants Ethers.

(** [null] is [None].  The module imports [INT224_MAX] and [INT224_MIN]
    from the constants module, which is evaluated before anything of this
    module can be called; the function body reads the two bounds it
    exports. *)
Definition decodeBeaconValue (encodedBeaconValue : list Byte.byte)
  : result (option Z) :=
  bounds ← Constants.evaluate;
  let '(INT224_MIN, INT224_MAX) := bounds in
  decodedBeaconValue ← abi_decode_int256 encodedBeaconValue;
  if (decodedBeaconValue >? INT224_MAX) || (decodedBeaconValue <? INT224_MIN)
  then Ok None
  else Ok (Some decodedBeaconValue).

(** [abs = (n) => (n < 0n ? -n : n)] *)
Definition abs (n : Z) : Z := if n <? 0 then - n else n.

End Utils.

(** ** The deviation check *)

Module DeviationCheck.
Import Constants Utils.

Definition calculateDeviationPercentage
    (initialValue updatedValue deviationReference : Z) : result Z :=
  let absoluteDelta := abs (updatedValue - initialValue) in
  if absoluteDelta =? 0 then Ok 0
  else
    let absoluteInitialValue := abs (deviationReference - initialValue) in
    (* [!absoluteInitialValue]: a bigint is falsy exactly when it is 0n *)
    if absoluteInitialValue =? 0 then Ok UINT256_MAX
    else bigint_div (absoluteDelta * HUNDRED_PERCENT) absoluteInitialValue.

Definition isDeviationThresholdExceeded
    (onChainValue deviationThreshold apiValue deviationReference : Z)
  : result bool :=
  updateInPercentage ←
    calculateDeviationPercentage onChainValue apiValue deviationReference;
  Ok (updateInPercentage >=? deviationThreshold).

(** The comparison function handed to [sort]. *)
Definition compareBigint (a b : Z) : Z :=
  if a <? b then -1 else if a >? b then 1 else 0.

(** [arr] is a reference; the function runs on the heap and returns the
    heap it leaves behind.  A read of [undefined] through [!] cannot take
    part in bigint arithmetic and is a [TypeError]. *)
Definition calculateMedian (arr : loc) (h : heap) : result Z * heap :=
  match h !! arr with
  | None => (Throw (TypeError "arr is not an array"), h)
  | Some xs =>
      let len := Z.of_nat (length xs) in
      if len =? 0 then
        (Throw (Error "Cannot calculate median of empty array"), h)
      else
        let mid := len / 2 in
        let '(nums, h1) := array_spread xs h in
        let h2 := array_sort compareBigint nums h1 in
        let sorted := default [] (h2 !! nums) in
        let at_ (i : Z) : result Z :=
          match array_get sorted i with
          | Some v => Ok v
          | None => Throw (TypeError "Cannot mix BigInt and other types")
          end in
        (if len mod 2 =? 0
         then a ← at_ (mid - 1); b ← at_ mid; bigint_div (a + b) 2
         else at_ mid,
         h2)
  end.

(** [nowMs] is the value of [Date.now()] at the call. *)
Definition isOnChainDataFresh (nowMs timestamp heartbeatInterval : Z) : bool :=
  timestamp >? floor_div_1000 nowMs - heartbeatInterval.

Definition info (m : string) : log_entry := LogEntry Info m.
Definition warn (m : string) : log_entry := LogEntry Warn m.

(** The decision together with the lines it writes to the logger. *)
Definition isDataFeedUpdatable (nowMs : Z)
    (onChainValue onChainTimestamp offChainValue offChainTimestamp
     heartbeatInterval deviationThreshold deviationReference : Z)
  : result bool * list log_entry :=
  if offChainTimestamp <=? onChainTimestamp then
    (Ok false,
     if offChainTimestamp <? onChainTimestamp
     then [warn "Off-chain sample's timestamp is older than on-chain timestamp."]
     else [])
  else if onChainTimestamp =? 0 then (Ok true, [])
  else
    let isFreshEnough :=
      isOnChainDataFresh nowMs onChainTimestamp heartbeatInterval in
    if isFreshEnough then
      if deviationThreshold =? 0 then
        (Ok false, [info "Deviation threshold is zero."])
      else
        match isDeviationThresholdExceeded
                onChainValue deviationThreshold offChainValue deviationReference
        with
        | Throw e => (Throw e, [])
        | Ok true => (Ok true, [info "Deviation exceeded."])
        | Ok false => (Ok false, [])
        end
    else
      if heartbeatInterval =? 0 then
        (Ok false, [info "Heartbeat interval is zero."])
      else
        (Ok true, [info "On-chain timestamp is older than the heartbeat interval."]).

End DeviationCheck.

(** ** The lodash helpers used by the sources *)

Module Lodash.

(** [range(start, end)] with an integral [start] and no [step] argument:
    the step is 1 when [start < end] and -1 otherwise, the length is
    [max(ceil((end - start) / step), 0)], and the elements are [start],
    [start + step], ... *)
Definition range (start : Z) (end_ : Q) : list Z :=
  let step := if Qle_bool end_ (inject_Z start) then -1 else 1 in
  let length :=
    Z.max (Qceiling ((end_ - inject_Z start) / inject_Z step)) 0 in
  (fun index => start + index * step) <$> seqZ 0 length.

(** [uniq(array)]: the first occurrence of each element, in order. *)
Fixpoint uniq (l : list string) : list string :=
  match l with
  | [] => []
  | x :: l' => x :: filter (fun y => y <> x) (uniq l')
  end.

End Lodash.

(** ** The update-feed loop *)

Module UpdateFeeds.

(** The fields of a chain's configuration that [runUpdateFeed] computes
    with; [providers] and [contracts] only select the remote registry. *)
Record Chain := {
  dataFeedBatchSize : Z;
  dataFeedUpdateInterval : Q
}.

Section Loop.
Context {Dapi State : Type}.

(** The remote registry as one cycle sees it: the active dAPIs in
    registry order, and for each remote call whether it fails. *)
Record Registry := {
  dapis : list Dapi;
  readDapis_error : Z -> Z -> option error;
  dapisCount_error : option error
}.

(** Modelled from the spec: the registry client is not part of the
    sources at hand.  The specification gives its interface as a
    paginated read, page [offset, limit] of the active feeds, and a
    total count. *)
Definition readDapis (reg : Registry) (offset limit : Z)
  : result (list Dapi) :=
  match readDapis_error reg offset limit with
  | Some e => Throw e
  | None => Ok (take (Z.to_nat limit) (drop (Z.to_nat offset) (dapis reg)))
  end.

Definition dapisCount (reg : Registry) : result Z :=
  match dapisCount_error reg with
  | Some e => Throw e
  | None => Ok (Z.of_nat (length (dapis reg)))
  end.

(** What a cycle does to the outside, in the order it is started. *)
Inductive event :=
| Log (lvl : level) (message : string)
| ReadDapis (offset limit : Z)
| DapisCount
| Sleep (ms : Q)
| ProcessBatch (batch : list Dapi).

(** [processBatch] has an empty body; the event records the call. *)
Definition processBatch (batch : list Dapi) (s : State)
  : State * list event :=
  (s, [ProcessBatch batch]).

(** The body handed to [go]: the first page, then the total count. *)
Definition goFirstBatch (reg : Registry) (dataFeedBatchSize : Z)
  : result (list Dapi * Z) * list event :=
  match readDapis reg 0 dataFeedBatchSize with
  | Throw e => (Throw e, [ReadDapis 0 dataFeedBatchSize])
  | Ok batch =>
      match dapisCount reg with
      | Throw e => (Throw e, [ReadDapis 0 dataFeedBatchSize; DapisCount])
      | Ok totalDapisCount =>
          (Ok (batch, totalDapisCount),
           [ReadDapis 0 dataFeedBatchSize; DapisCount])
      end
  end.

(** The task started for one later batch. *)
Definition fetchOtherBatch (reg : Registry) (dataFeedBatchSize : Z)
    (staggerTime : Q) (batchIndex : Z)
  : result (list Dapi) * list event :=
  (readDapis reg (batchIndex * dataFeedBatchSize) dataFeedBatchSize,
   [Sleep (inject_Z (batchIndex - 1) * staggerTime);
    Log Debug "Fetching batch of active dAPIs";
    ReadDapis (batchIndex * dataFeedBatchSize) dataFeedBatchSize]).

Definition processBatches (batches : list (list Dapi)) (s : State)
  : State * list event :=
  foldl (fun '(s, evs) batch =>
           let '(s', evs') := processBatch batch s in (s', evs ++ evs'))
        (s, []) batches.

(** One cycle.  [firstBatchDuration] is the time the first read took,
    in milliseconds.  [totalCount / dataFeedBatchSize] is a division of
    numbers, not an integer quotient; for a count below 2^53 and the
    positive integral batch size of a validated configuration the rational
    quotient decides the comparison with 1 and the ceiling taken by [range]
    exactly as the double does. *)
Definition runUpdateFeed (reg : Registry) (firstBatchDuration : Q)
    (chain : Chain) (s : State) : State * list event :=
  let dataFeedBatchSize := dataFeedBatchSize chain in
  let dataFeedUpdateInterval := dataFeedUpdateInterval chain in
  let ev0 := [Log Debug "Fetching first batch of dAPIs batches"] in
  let '(goFirst, ev1) := goFirstBatch reg dataFeedBatchSize in
  match goFirst with
  | Throw e =>
      (s, ev0 ++ ev1 ++ [Log Err "Failed to get first active dAPIs batch"])
  | Ok (firstBatch, totalCount) =>
      let '(s1, ev2) := processBatch firstBatch s in
      let batchesCount :=
        (inject_Z totalCount / inject_Z dataFeedBatchSize)%Q in
      let staggerTime :=
        if Qle_bool batchesCount 1 then 0%Q
        else ((dataFeedUpdateInterval / batchesCount) * 1000)%Q in
      let ev3 :=
        [Sleep (Qmax 0 (staggerTime - firstBatchDuration));
         Log Debug "Fetching batches of active dAPIs"] in
      let otherBatches :=
        fetchOtherBatch reg dataFeedBatchSize staggerTime
          <$> Lodash.range 1 batchesCount in
      let ev4 := otherBatches ≫= snd in
      let ev5 :=
        omap (fun r => match r.1 with
                       | Throw _ =>
                           Some (Log Err "Failed to get active dAPIs batch")
                       | Ok _ => None
                       end) otherBatches in
      let fulfilled :=
        omap (fun r => match r.1 with
                       | Ok batch => Some batch
                       | Throw _ => None
                       end) otherBatches in
      let '(s2, ev6) := processBatches fulfilled s1 in
      (s2, ev0 ++ ev1 ++ ev2 ++ ev3 ++ ev4 ++ ev5 ++ ev6)
  end.

(** The batches handed to [processBatch], and the pages requested. *)
Definition processedBatches (evs : list event) : list (list Dapi) :=
  omap (fun e => match e with ProcessBatch b => Some b | _ => None end) evs.

Definition issuedReads (evs : list event) : list (Z * Z) :=
  omap (fun e => match e with
                 | ReadDapis offset limit => Some (offset, limit)
                 | _ => None
                 end) evs.

End Loop.

Arguments Registry : clear implicits.
Arguments event : clear implicits.

(** *** Signed-API URL bookkeeping *)

Record SignedApiUrl := {
  url : string;
  lastReceivedMs : Z
}.

(** Modelled from the spec: [mergeUrls] is exercised by the test suite but
    its definition is not part of the sources at hand.  The specification
    says: entries are deduplicated by URL; merging two sets keeps, per URL,
    the entry with the greater [lastReceivedMs] and otherwise includes the
    URLs present in either input (union, not intersection).  The merge
    below collects the entries of both inputs in a map keyed by URL and
    replaces a stored entry only by one received later. *)
Definition keepFreshest (acc : gmap string Z) (entry : SignedApiUrl)
  : gmap string Z :=
  match acc !! url entry with
  | Some ms =>
      if ms <? lastReceivedMs entry
      then <[url entry := lastReceivedMs entry]> acc
      else acc
  | None => <[url entry := lastReceivedMs entry]> acc
  end.

Definition mergeUrls (oldUrls newUrls : list SignedApiUrl)
  : list SignedApiUrl :=
  (fun p => {| url := p.1; lastReceivedMs := p.2 |})
    <$> map_to_list (foldl keepFreshest ∅ (oldUrls ++ newUrls)).

End UpdateFeeds.

(** ** The signed-API data fetcher *)

Module DataFetcher.

(** A JavaScript object used as a dictionary: its entries in the order
    [Object.keys], [Object.values] and [Object.entries] enumerate them
    (integer-like keys first, ascending, then the others as inserted). *)
Definition object (V : Type) : Type := list (string * V).

Definition Object_values {V} (o : object V) : list V := snd <$> o.

(** An interval timer: the handle [setInterval] returned and its period. *)
Record timer := { handle : nat; period_ms : Q }.

Record Beacon := {
  airnodeAddress : string;
  beaconTemplateId : string
}.

(** The part of process state the fetcher reads and writes.  The URL lists
    are the leaves of [signedApiUrlStore], three dictionaries deep. *)
Record State := {
  signedDataFetchInterval : Q;
  signedApiUrlStore : object (object (object (list string)));
  dataFetcherInterval : option nat
}.

Section Fetcher.
(** The data-point store and the signed data points are kept by modules
    outside the sources at hand; so is the derivation of the active
    beacons.  [response] is what a signed API answers to a GET, after
    schema validation, or the error of the call. *)
Context {DataStore SignedData : Type}.
Variables
  (airnode templateId : SignedData -> string)
  (response : string -> result (list SignedData))
  (getBeaconsForActiveDapis : State -> list Beacon)
  (setStoreDataPoint : SignedData -> DataStore -> DataStore)
  (purgeInactiveDataPoints : State -> DataStore -> DataStore).

(** Process state, the timers of the event loop, the data-point store
    and the log. *)
Record World := {
  state : State;
  timers : list timer;
  nextHandle : nat;
  dataStore : DataStore;
  logged : list log_entry
}.

Definition logger (lvl : level) (m : string) (w : World) : World :=
  {| state := state w; timers := timers w; nextHandle := nextHandle w;
     dataStore := dataStore w; logged := logged w ++ [LogEntry lvl m] |}.

Definition updateState (f : State -> State) (w : World) : World :=
  {| state := f (state w); timers := timers w; nextHandle := nextHandle w;
     dataStore := dataStore w; logged := logged w |}.

Definition updateStore (f : DataStore -> DataStore) (w : World) : World :=
  {| state := state w; timers := timers w; nextHandle := nextHandle w;
     dataStore := f (dataStore w); logged := logged w |}.

(** [setInterval(callback, ms)]: a new timer with a handle not used
    before.  The callback is always [runDataFetcher]. *)
Definition setInterval (ms : Q) (w : World) : nat * World :=
  (nextHandle w,
   {| state := state w;
      timers := timers w ++ [{| handle := nextHandle w; period_ms := ms |}];
      nextHandle := S (nextHandle w);
      dataStore := dataStore w; logged := logged w |}).

(** [clearInterval(h)]; [clearInterval(undefined)] does nothing. *)
Definition clearInterval (h : option nat) (w : World) : World :=
  match h with
  | None => w
  | Some h =>
      {| state := state w;
         timers := filter (fun t => handle t <> h) (timers w);
         nextHandle := nextHandle w;
         dataStore := dataStore w; logged := logged w |}
  end.

Definition stopDataFetcher (w : World) : World :=
  clearInterval (dataFetcherInterval (state w)) w.

Definition callSignedDataApi (url : string) : result (list SignedData) :=
  match response url with
  | Throw e => Throw (Error "HTTP call failed")
  | Ok data => Ok data
  end.

(** The task run for one URL. *)
Definition fetchUrl (activeBeacons : list Beacon) (w : World) (url : string)
  : World :=
  match callSignedDataApi url with
  | Ok payload =>
      let beaconsForActiveDApis :=
        filter (fun signedData =>
                  Exists (fun beacon =>
                            airnodeAddress beacon = airnode signedData /\
                            beaconTemplateId beacon = templateId signedData)
                         activeBeacons)
               payload in
      foldl (fun w element => updateStore (setStoreDataPoint element) w)
            w beaconsForActiveDApis
  | Throw _ => logger Warn "Failed to fetch data from signed API" w
  end.

(** One run.  The timer is registered and recorded before the first
    suspension point; the per-URL tasks are run in the order of [urls]. *)
Definition runDataFetcher (w : World) : World :=
  let w := logger Debug "Running data fetcher" w in
  let st := state w in
  let signedDataFetchIntervalMs := (signedDataFetchInterval st * 1000)%Q in
  let w :=
    match dataFetcherInterval st with
    | None =>
        let '(dataFetcherInterval, w) :=
          setInterval signedDataFetchIntervalMs w in
        updateState
          (fun draft =>
             {| signedDataFetchInterval := signedDataFetchInterval draft;
                signedApiUrlStore := signedApiUrlStore draft;
                dataFetcherInterval := Some dataFetcherInterval |})
          w
    | Some _ => w
    end in
  let urls :=
    Lodash.uniq
      (concat
         ((Object_values (signedApiUrlStore st)
             ≫= (fun urlsPerProvider => Object_values urlsPerProvider))
             ≫= (fun urlsPerAirnode => Object_values urlsPerAirnode))) in
  let activeBeacons := getBeaconsForActiveDapis (state w) in
  let w := logger Debug "Fetching data from signed APIs" w in
  let w := foldl (fetchUrl activeBeacons) w urls in
  updateStore (purgeInactiveDataPoints (state w)) w.

(** What the event loop may do with the fetcher: run it (at start-up or
    from its timer), or stop it. *)
Inductive call := RunDataFetcher | StopDataFetcher.

Definition perform (w : World) (c : call) : World :=
  match c with
  | RunDataFetcher => runDataFetcher w
  | StopDataFetcher => stopDataFetcher w
  end.

End Fetcher.

End DataFetcher.

(** ** Auxiliary definitions used in the statements *)

Module Aux.

(** The value [calculateMedian] reads off the sorted copy [s] of an array
    of [n] elements. *)
Definition median_of_sorted (s : list Z) (n : nat) : result Z :=
  let read (i : nat) : result Z :=
    match s !! i with
    | Some v => Ok v
    | None => Throw (TypeError "Cannot mix BigInt and other types")
    end in
  if Nat.even n
  then a ← read (n / 2 - 1)%nat; b ← read (n / 2)%nat; Ok (Z.quot (a + b) 2)
  else read (n / 2)%nat.

(** Fixtures in the style of the test suite: a registry of five dAPIs
    that answers every call, one whose provider rejects every page read,
    one whose count call fails, and a chain with batch size 2. *)
Definition registry_up : UpdateFeeds.Registry string :=
  {| UpdateFeeds.dapis := ["a"; "b"; "c"; "d"; "e"];
     UpdateFeeds.readDapis_error := fun _ _ => None;
     UpdateFeeds.dapisCount_error := None |}.

Definition registry_down : UpdateFeeds.Registry string :=
  {| UpdateFeeds.dapis := ["a"; "b"; "c"; "d"; "e"];
     UpdateFeeds.readDapis_error := fun _ _ => Some (Error "provider-error");
     UpdateFeeds.dapisCount_error := None |}.

Definition registry_count_down : UpdateFeeds.Registry string :=
  {| UpdateFeeds.dapis := ["a"; "b"; "c"; "d"; "e"];
     UpdateFeeds.readDapis_error := fun _ _ => None;
     UpdateFeeds.dapisCount_error := Some (Error "provider-error") |}.

Definition chain_batch2 : UpdateFeeds.Chain :=
  {| UpdateFeeds.dataFeedBatchSize := 2;
     UpdateFeeds.dataFeedUpdateInterval := 10 |}.

(** The part of the fetcher's world that decides about timers. *)
Definition control {DataStore} (w : @DataFetcher.World DataStore)
  : DataFetcher.State * list DataFetcher.timer * nat :=
  (DataFetcher.state w, DataFetcher.timers w, DataFetcher.nextHandle w).

(** A process that has just started: one signed API known, no timer. *)
Definition world_at_start : @DataFetcher.World unit :=
  {| DataFetcher.state :=
       {| DataFetcher.signedDataFetchInterval := 10;
          DataFetcher.signedApiUrlStore :=
            [("31337", [("hardhat", [("0xA1", ["http://one"; "http://one"])])])];
          DataFetcher.dataFetcherInterval := None |};
     DataFetcher.timers := [];
     DataFetcher.nextHandle := 1;
     DataFetcher.dataStore := tt;
     DataFetcher.logged := [] |}.

End Aux.

Import Aux.

(** ** Starting the update-feed loops *)

Module FeedLoops.
Import DataFetcher.

Record Provider := { url : string }.

(** The fields of a chain's configuration that [startUpdateFeedLoops]
    reads. *)
Record Chain := {
  dataFeedUpdateInterval : Q;
  providers : object Provider
}.



(** [size(collection)] of lodash, on an object: the number of its keys. *)
Definition size {V} (o : object V) : Z := Z.of_nat (length o).

(** What the start-up does to the outside: the timer registered for a
    provider's loop (its callback runs [runUpdateFeed] for that provider and
    chain) and the delays awaited in between. *)
Inductive event :=
| Log (lvl : level) (message : string)
| SetInterval (chainId providerName : string) (ms : Q)
| Sleep (ms : Q).



End FeedLoops.

(** ** Observations on the traces *)

Module Observe.

(** The messages logged at level error during a cycle. *)
Definition errorLogs {Dapi} (evs : list (UpdateFeeds.event Dapi)) : list string :=
  omap (fun e => match e with
                 | UpdateFeeds.Log Err message => Some message
                 | _ => None
                 end) evs.

(** The delays a cycle waits for, in the order they are requested. *)
Definition sleeps {Dapi} (evs : list (UpdateFeeds.event Dapi)) : list Q :=
  omap (fun e => match e with
                 | UpdateFeeds.Sleep ms => Some ms
                 | _ => None
                 end) evs.

(** The pages of a registry as [readDapis] slices them. *)
Definition page {Dapi} (reg : UpdateFeeds.Registry Dapi) (B : Z) (i : Z)
  : list Dapi :=
  take (Z.to_nat B) (drop (Z.to_nat (i * B)) (UpdateFeeds.dapis reg)).


(** The URLs held by the signed-API URL store, with repetitions. *)
Definition storeUrls (st : DataFetcher.State) : list string :=
  concat
    ((DataFetcher.Object_values (DataFetcher.signedApiUrlStore st)
        ≫= (fun urlsPerProvider => DataFetcher.Object_values urlsPerProvider))
        ≫= (fun urlsPerAirnode => DataFetcher.Object_values urlsPerAirnode)).

(** The messages logged at level warn. *)
Definition warnings (entries : list log_entry) : list string :=
  omap (fun e => match log_level e with
                 | Warn => Some (log_message e)
                 | _ => None
                 end) entries.

(** A signed data point is active when some active beacon has its airnode
    address and template id. *)
Definition matchesActiveBeacon {SignedData}
    (airnode templateId : SignedData -> string)
    (activeBeacons : list DataFetcher.Beacon) (signedData : SignedData) : Prop :=
  Exists (fun beacon =>
            DataFetcher.airnodeAddress beacon = airnode signedData /\
            DataFetcher.beaconTemplateId beacon = templateId signedData)
         activeBeacons.

End Observe.

Import Observe.

(** ** dAPI names as bytes32 strings *)

Module DapiName.

(** [while (data[length - 1] === 0) { length--; }], on the bytes before the
    terminator: the trailing zero bytes are dropped. *)
Fixpoint dropZeros (reversed : list Byte.byte) : list Byte.byte :=
  match reversed with
  | [] => []
  | b :: rest => if Byte.eqb b Byte.x00 then dropZeros rest else b :: rest
  end.

Definition stripTrailingZeros (data : list Byte.byte) : list Byte.byte :=
  reverse (dropZeros (reverse data)).

(** [ethers.encodeBytes32String(text)], on the UTF-8 bytes of [text]: at
    most 31 bytes, padded with zero bytes to 32. *)
Definition encodeDapiName (decodedDapiName : list Byte.byte)
  : result (list Byte.byte) :=
  if (31 <? length decodedDapiName)%nat
  then Throw (Error "bytes32 string must be less than 32 bytes")
  else Ok (decodedDapiName
           ++ replicate (32 - length decodedDapiName) Byte.x00).

(** [ethers.decodeBytes32String(bytes)]: exactly 32 bytes, the last one
    zero; the result is the UTF-8 bytes of the decoded text. *)
Definition decodeDapiName (encodedDapiName : list Byte.byte)
  : result (list Byte.byte) :=
  if negb (length encodedDapiName =? 32)%nat
  then Throw (Error "invalid bytes32 - not 32 bytes long")
  else
    match encodedDapiName !! 31%nat with
    | Some b =>
        if Byte.eqb b Byte.x00
        then Ok (stripTrailingZeros (take 31 encodedDapiName))
        else Throw (Error "invalid bytes32 string - no null terminator")
    | None => Throw (Error "invalid bytes32 - not 32 bytes long")
    end.

End DapiName.

(** * Properties *)

(** ** Runtime lemmas *)

Section Runtime.

Lemma abs_spec n : Utils.abs n = Z.abs n.
Proof. unfold Utils.abs. destruct (Z.ltb_spec n 0); lia. Qed.

Lemma compareBigint_le a b :
  (DeviationCheck.compareBigint a b <=? 0) = (a <=? b).
Proof.
  unfold DeviationCheck.compareBigint.
  destruct (Z.ltb_spec a b), (Z.gtb_spec a b), (Z.leb_spec a b);
    try reflexivity; lia.
Qed.

Lemma sort_insert_perm cmp x l : sort_insert cmp x l ≡ₚ x :: l.
Proof.
  induction l as [|y l IH]; simpl; [done|].
  destruct (cmp x y <=? 0); [done|].
  rewrite IH. apply perm_swap.
Qed.

Lemma sorted_with_perm cmp l : sorted_with cmp l ≡ₚ l.
Proof.
  induction l as [|x l IH]; simpl; [done|].
  change (foldr (sort_insert cmp) [] l) with (sorted_with cmp l).
  by rewrite sort_insert_perm, IH.
Qed.

Lemma sort_insert_sorted x l :
  Sorted Z.le l -> Sorted Z.le (sort_insert DeviationCheck.compareBigint x l).
Proof.
  induction 1 as [|y l Hl IH Hhd]; simpl.
  - repeat constructor.
  - rewrite compareBigint_le.
    destruct (Z.leb_spec x y) as [Hxy|Hxy].
    + repeat constructor; assumption.
    + constructor; [exact IH|].
      destruct Hhd as [|z l' Hyz]; simpl.
      * constructor. lia.
      * rewrite compareBigint_le.
        destruct (Z.leb_spec x z); constructor; lia.
Qed.

Lemma sorted_with_sorted l :
  Sorted Z.le (sorted_with DeviationCheck.compareBigint l).
Proof.
  induction l as [|x l IH]; simpl; [constructor|].
  by apply sort_insert_sorted.
Qed.

(** The sorted arrangement of a list of integers is unique, so the array
    left by [sort] is the sorted list, whatever algorithm the engine runs. *)
Lemma sorted_with_unique l s :
  Sorted Z.le s -> s ≡ₚ l -> sorted_with DeviationCheck.compareBigint l = s.
Proof.
  intros Hs Hp.
  apply (Sorted_unique Z.le); [apply sorted_with_sorted|exact Hs|].
  by rewrite sorted_with_perm, Hp.
Qed.

Lemma array_get_lookup (xs : list Z) (i : nat) :
  array_get xs (Z.of_nat i) = xs !! i.
Proof.
  unfold array_get. destruct (Z.ltb_spec (Z.of_nat i) 0); [lia|].
  by rewrite Nat2Z.id.
Qed.

End Runtime.

(** ** The update-necessity engine *)

Section UpdateNecessity.
Import Constants Utils DeviationCheck.

(** C1, as stated, fails: with both timestamps 0 the off-chain sample is
    not newer than the on-chain one, and the first guard of
    [isDataFeedUpdatable] answers "not updatable" before the
    uninitialized-slot rule is reached. *)
Lemma isDataFeedUpdatable_uninitialized_not_always :
  isDataFeedUpdatable 1700000000000 0 0 105 0 86400 1000000 0
  = (Ok false, []).
Proof. reflexivity. Qed.

(** C1 (amended): with [onChainTimestamp = 0] and an off-chain timestamp
    that is strictly newer (greater than 0), [isDataFeedUpdatable] returns
    [true] and logs nothing, whatever the values, the heartbeat interval,
    the deviation threshold, the deviation reference and the clock are. *)
Theorem isDataFeedUpdatable_uninitialized
    nowMs onChainValue offChainValue offChainTimestamp
    heartbeatInterval deviationThreshold deviationReference :
  0 < offChainTimestamp ->
  isDataFeedUpdatable nowMs onChainValue 0 offChainValue offChainTimestamp
    heartbeatInterval deviationThreshold deviationReference
  = (Ok true, []).
Proof.
  intros Hnewer. unfold isDataFeedUpdatable.
  destruct (Z.leb_spec offChainTimestamp 0); [lia|]. reflexivity.
Qed.

Lemma isDataFeedUpdatable_uninitialized_witness :
  0 < 1700000000 /\
  isDataFeedUpdatable 1700000000000 0 0 105 1700000000 0 0 0 = (Ok true, []).
Proof.
  split; [lia|].
  apply (isDataFeedUpdatable_uninitialized 1700000000000 0 105 1700000000 0 0 0).
  lia.
Defined.

(** C2: [calculateDeviationPercentage] returns 0 when the updated value
    equals the initial one, for every reference; the maximal value when
    the values differ and the reference equals the initial value; and
    otherwise |updated - initial| * 10^8 / |reference - initial| with the
    quotient truncated toward zero.  It never throws. *)
Theorem calculateDeviationPercentage_cases
    (initialValue updatedValue deviationReference : Z) :
  (updatedValue = initialValue ->
   calculateDeviationPercentage initialValue updatedValue deviationReference
   = Ok 0) /\
  (updatedValue <> initialValue -> deviationReference = initialValue ->
   calculateDeviationPercentage initialValue updatedValue deviationReference
   = Ok UINT256_MAX) /\
  (updatedValue <> initialValue -> deviationReference <> initialValue ->
   calculateDeviationPercentage initialValue updatedValue deviationReference
   = Ok (Z.quot (Z.abs (updatedValue - initialValue) * 10 ^ 8)
                (Z.abs (deviationReference - initialValue)))).
Proof.
  unfold calculateDeviationPercentage, bigint_div. rewrite !abs_spec.
  split; [|split].
  - intros ->. rewrite Z.sub_diag. reflexivity.
  - intros Hne ->. rewrite Z.sub_diag. simpl.
    destruct (Z.eqb_spec (Z.abs (updatedValue - initialValue)) 0); [lia|].
    reflexivity.
  - intros Hne Hre.
    destruct (Z.eqb_spec (Z.abs (updatedValue - initialValue)) 0); [lia|].
    destruct (Z.eqb_spec (Z.abs (deviationReference - initialValue)) 0); [lia|].
    reflexivity.
Qed.

Lemma calculateDeviationPercentage_cases_witness :
  calculateDeviationPercentage 100 100 7 = Ok 0 /\
  calculateDeviationPercentage 100 100 100 = Ok 0 /\
  calculateDeviationPercentage 100 110 100 = Ok UINT256_MAX /\
  calculateDeviationPercentage 100 93 (-200) = Ok 2333333.
Proof.
  split; [|split; [|split]].
  - apply (proj1 (calculateDeviationPercentage_cases 100 100 7)). reflexivity.
  - apply (proj1 (calculateDeviationPercentage_cases 100 100 100)). reflexivity.
  - apply (proj1 (proj2 (calculateDeviationPercentage_cases 100 110 100)));
      [lia | reflexivity].
  - apply (proj2 (proj2 (calculateDeviationPercentage_cases 100 93 (-200))));
      lia.
Defined.

(** C3: once the off-chain sample is strictly newer and the on-chain slot
    is initialized, a zero deviation threshold on the fresh branch, and a
    zero heartbeat interval on the stale branch, both make
    [isDataFeedUpdatable] return [false]: it returns normally (no throw)
    and writes one line at level info. *)
Theorem isDataFeedUpdatable_policy_undefined
    nowMs onChainValue onChainTimestamp offChainValue offChainTimestamp
    heartbeatInterval deviationThreshold deviationReference :
  onChainTimestamp < offChainTimestamp ->
  onChainTimestamp <> 0 ->
  (isOnChainDataFresh nowMs onChainTimestamp heartbeatInterval = true ->
   deviationThreshold = 0 ->
   isDataFeedUpdatable nowMs onChainValue onChainTimestamp offChainValue
     offChainTimestamp heartbeatInterval deviationThreshold deviationReference
   = (Ok false, [LogEntry Info "Deviation threshold is zero."])) /\
  (isOnChainDataFresh nowMs onChainTimestamp heartbeatInterval = false ->
   heartbeatInterval = 0 ->
   isDataFeedUpdatable nowMs onChainValue onChainTimestamp offChainValue
     offChainTimestamp heartbeatInterval deviationThreshold deviationReference
   = (Ok false, [LogEntry Info "Heartbeat interval is zero."])).
Proof.
  intros Hnewer Hinit. unfold isDataFeedUpdatable.
  destruct (Z.leb_spec offChainTimestamp onChainTimestamp); [lia|].
  destruct (Z.eqb_spec onChainTimestamp 0); [lia|].
  split.
  - intros -> ->. reflexivity.
  - intros -> ->. reflexivity.
Qed.

Lemma isDataFeedUpdatable_policy_undefined_witness :
  isDataFeedUpdatable 1700000000000 100 1699999990 250 1699999995 60 0 0
  = (Ok false, [LogEntry Info "Deviation threshold is zero."]) /\
  isDataFeedUpdatable 1700000000000 100 1600000000 250 1699999995 0 5 0
  = (Ok false, [LogEntry Info "Heartbeat interval is zero."]).
Proof.
  split.
  - apply (isDataFeedUpdatable_policy_undefined
             1700000000000 100 1699999990 250 1699999995 60 0 0);
      [lia | lia | reflexivity | reflexivity].
  - apply (isDataFeedUpdatable_policy_undefined
             1700000000000 100 1600000000 250 1699999995 0 5 0);
      [lia | lia | reflexivity | reflexivity].
Defined.

End UpdateNecessity.

(** ** The median helper *)

Section Median.
Import DeviationCheck.

Lemma calculateMedian_nonempty (h : heap) (arr : loc) (xs : list Z) :
  h !! arr = Some xs -> xs <> [] ->
  calculateMedian arr h
  = (median_of_sorted (sorted_with compareBigint xs) (length xs),
     <[fresh (dom h) := sorted_with compareBigint xs]> h).
Proof.
  intros Harr Hne. unfold calculateMedian. rewrite Harr.
  assert (Hlen : (0 < length xs)%nat) by (destruct xs; [done | simpl; lia]).
  destruct (Z.eqb_spec (Z.of_nat (length xs)) 0) as [|_]; [lia|].
  unfold array_spread, array_sort. rewrite alter_insert_eq.
  rewrite lookup_insert_eq. simpl. f_equal.
  unfold median_of_sorted.
  set (s := sorted_with compareBigint xs).
  set (n := length xs) in *.
  assert (Hmid : Z.of_nat n / 2 = Z.of_nat (n / 2)).
  { rewrite (Nat2Z.inj_div n 2). reflexivity. }
  assert (Hmod : Z.of_nat n mod 2 = Z.of_nat (n mod 2)).
  { rewrite (Nat2Z.inj_mod n 2). reflexivity. }
  rewrite Hmid, Hmod, array_get_lookup.
  destruct (Nat.even n) eqn:Hev.
  - assert (n mod 2 = 0)%nat as ->.
    { apply Nat.even_spec in Hev. destruct Hev as [k ->].
      rewrite Nat.mul_comm. apply Nat.Div0.mod_mul. }
    simpl (Z.of_nat 0 =? 0).
    assert (1 <= n / 2)%nat.
    { apply Nat.even_spec in Hev. destruct Hev as [k Hk].
      rewrite Hk, Nat.mul_comm, Nat.div_mul by lia. lia. }
    replace (Z.of_nat (n / 2) - 1) with (Z.of_nat (n / 2 - 1)) by lia.
    rewrite array_get_lookup.
    destruct (s !! (n / 2 - 1)%nat); [|reflexivity].
    destruct (s !! (n / 2)%nat); reflexivity.
  - assert (n mod 2 = 1)%nat as ->.
    { rewrite <- Nat.negb_odd in Hev. apply negb_false_iff in Hev.
      apply Nat.odd_spec in Hev. destruct Hev as [k ->].
      rewrite Nat.add_comm, Nat.mul_comm, Nat.Div0.mod_add. reflexivity. }
    reflexivity.
Qed.

(** C4: on the empty array [calculateMedian] throws; on a non-empty array
    it returns the middle element of the sorted arrangement [s] of the array
    when the length is odd, and the sum of the two middle elements of [s]
    divided by 2, truncated toward zero, when the length is even.  In
    particular the median of [1, 2, 3, 4] is 2. *)
Theorem calculateMedian_spec (h : heap) (arr : loc) (xs : list Z) :
  h !! arr = Some xs ->
  (xs = [] ->
   (calculateMedian arr h).1
   = Throw (Error "Cannot calculate median of empty array")) /\
  (forall s : list Z,
     xs <> [] -> Sorted Z.le s -> s ≡ₚ xs ->
     let mid := (length xs / 2)%nat in
     if Nat.even (length xs)
     then exists a b,
            s !! (mid - 1)%nat = Some a /\ s !! mid = Some b /\
            (calculateMedian arr h).1 = Ok (Z.quot (a + b) 2)
     else exists m,
            s !! mid = Some m /\ (calculateMedian arr h).1 = Ok m) /\
  (xs = [1; 2; 3; 4] -> (calculateMedian arr h).1 = Ok 2).
Proof.
  intros Harr. split; [|split].
  - intros ->. unfold calculateMedian. rewrite Harr. reflexivity.
  - intros s Hne Hs Hp mid.
    rewrite (calculateMedian_nonempty h arr xs Harr Hne).
    rewrite (sorted_with_unique xs s Hs Hp). simpl.
    assert (Hlen : length s = length xs) by (by rewrite Hp).
    assert (Hpos : (0 < length xs)%nat) by (destruct xs; [done | simpl; lia]).
    assert (Hmid : (mid < length s)%nat).
    { rewrite Hlen. subst mid. apply Nat.div_lt; lia. }
    destruct (lookup_lt_is_Some_2 s mid Hmid) as [m Hm].
    unfold median_of_sorted. fold mid.
    destruct (Nat.even (length xs)).
    + assert (Hmid' : (mid - 1 < length s)%nat) by lia.
      destruct (lookup_lt_is_Some_2 s (mid - 1)%nat Hmid') as [a Ha].
      exists a, m. rewrite Ha, Hm. auto.
    + exists m. rewrite Hm. auto.
  - intros ->. rewrite (calculateMedian_nonempty h arr _ Harr); [|done].
    reflexivity.
Qed.

Lemma calculateMedian_spec_witness :
  (calculateMedian 3%nat {[ 3%nat := [7; -2; 5] ]}).1 = Ok 5 /\
  (calculateMedian 3%nat {[ 3%nat := [4; -7; 3; -2] ]}).1 = Ok 0 /\
  (calculateMedian 3%nat {[ 3%nat := [0; -3] ]}).1 = Ok (-1) /\
  (calculateMedian 3%nat {[ 3%nat := [] ]}).1
  = Throw (Error "Cannot calculate median of empty array") /\
  (calculateMedian 3%nat {[ 3%nat := [1; 2; 3; 4] ]}).1 = Ok 2.
Proof.
  split; [|split; [|split; [|split]]].
  - destruct (proj1 (proj2 (calculateMedian_spec
                {[ 3%nat := [7; -2; 5] ]} 3%nat [7; -2; 5] (lookup_singleton_eq 3%nat _)))
                [-2; 5; 7]) as (m & Hm & ->).
    + discriminate.
    + repeat constructor; lia.
    + symmetry. apply (Permutation_cons_append [-2; 5] 7).
    + injection Hm as <-. reflexivity.
  - destruct (proj1 (proj2 (calculateMedian_spec
                {[ 3%nat := [4; -7; 3; -2] ]} 3%nat [4; -7; 3; -2] (lookup_singleton_eq 3%nat _)))
                [-7; -2; 3; 4]) as (a & b & Ha & Hb & ->).
    + discriminate.
    + repeat constructor; lia.
    + symmetry. etransitivity.
      * apply (Permutation_cons_append [-7; 3; -2] 4).
      * simpl. apply perm_skip, perm_swap.
    + injection Ha as <-. injection Hb as <-. reflexivity.
  - destruct (proj1 (proj2 (calculateMedian_spec
                {[ 3%nat := [0; -3] ]} 3%nat [0; -3] (lookup_singleton_eq 3%nat _)))
                [-3; 0]) as (a & b & Ha & Hb & ->).
    + discriminate.
    + repeat constructor; lia.
    + apply perm_swap.
    + injection Ha as <-. injection Hb as <-. reflexivity.
  - apply (proj1 (calculateMedian_spec {[ 3%nat := [] ]} 3%nat [] (lookup_singleton_eq 3%nat _))).
    reflexivity.
  - apply (proj2 (proj2 (calculateMedian_spec
             {[ 3%nat := [1; 2; 3; 4] ]} 3%nat [1; 2; 3; 4] (lookup_singleton_eq 3%nat _)))).
    reflexivity.
Defined.

(** C10: [calculateMedian] does not mutate its argument, nor any other
    array that exists when it is called: after the call each of them holds
    the same elements in the same order.  The sort runs on a copy stored at
    a location that was not in use before. *)
Theorem calculateMedian_frame (h : heap) (arr l : loc) (xs : list Z) :
  h !! l = Some xs ->
  (calculateMedian arr h).2 !! l = Some xs.
Proof.
  intros Hl.
  destruct (h !! arr) as [ys|] eqn:Harr.
  - destruct (decide (ys = [])) as [->|Hne].
    + unfold calculateMedian. rewrite Harr. exact Hl.
    + rewrite (calculateMedian_nonempty h arr ys Harr Hne). simpl.
      rewrite lookup_insert_ne; [exact Hl|].
      intros <-. pose proof (is_fresh (dom h)) as Hfresh.
      apply Hfresh, elem_of_dom. eauto.
  - unfold calculateMedian. rewrite Harr. exact Hl.
Qed.

Lemma calculateMedian_frame_witness :
  (calculateMedian 3%nat {[ 3%nat := [4; 1; 3; 2] ]}).2 !! 3%nat
  = Some [4; 1; 3; 2].
Proof.
  apply (calculateMedian_frame {[ 3%nat := [4; 1; 3; 2] ]} 3%nat 3%nat).
  apply lookup_singleton_eq.
Defined.

End Median.

(** ** Decoding beacon values *)

Section BeaconValue.
Import Constants Ethers Utils.

Lemma byte_of_to_Z z : 0 <= z < 256 -> byte_to_Z (byte_of_Z z) = z.
Proof.
  intros Hz. unfold byte_to_Z, byte_of_Z.
  destruct (Byte.of_N (Z.to_N z)) as [b|] eqn:Hb.
  - simpl. apply Byte.to_of_N in Hb. rewrite Hb. lia.
  - apply Byte.of_N_None_iff in Hb. lia.
Qed.

Lemma be_to_Z_snoc bs b : be_to_Z (bs ++ [b]) = be_to_Z bs * 256 + byte_to_Z b.
Proof. unfold be_to_Z. rewrite fold_left_app. reflexivity. Qed.

Lemma be_of_Z_length n u : length (be_of_Z n u) = n.
Proof.
  revert u. induction n as [|n IH]; intros u; simpl; [done|].
  rewrite length_app, IH. simpl. lia.
Qed.

Lemma be_to_of_Z n u : be_to_Z (be_of_Z n u) = u mod 256 ^ Z.of_nat n.
Proof.
  revert u. induction n as [|n IH]; intros u.
  - simpl. rewrite Z.mod_1_r. reflexivity.
  - cbn [be_of_Z]. rewrite be_to_Z_snoc, IH.
    rewrite byte_of_to_Z by (apply Z.mod_pos_bound; lia).
    rewrite Nat2Z.inj_succ, Z.pow_succ_r by lia.
    rewrite Z.rem_mul_r by lia. lia.
Qed.

(** Every [int256] has an encoding, and decoding gives it back. *)
Lemma abi_decode_encode_int256 v :
  - 2 ^ 255 <= v < 2 ^ 255 ->
  abi_decode_int256 (abi_encode_int256 v) = Ok v.
Proof.
  intros Hv. unfold abi_decode_int256, abi_encode_int256.
  rewrite be_of_Z_length. simpl (32 <? 32)%nat. cbv iota.
  rewrite take_ge by (rewrite be_of_Z_length; lia).
  rewrite be_to_of_Z. unfold toTwos, fromTwos.
  change (Z.of_nat 32) with 32. change (256 ^ 32) with (2 ^ 256).
  rewrite Z.mod_mod by lia.
  change (256 - 1) with 255.
  assert (H256 : 2 ^ 256 = 2 * 2 ^ 255) by reflexivity.
  destruct (Z.le_gt_cases 0 v) as [Hpos|Hneg].
  - rewrite Z.mod_small by lia.
    destruct (Z.ltb_spec v (2 ^ 255)); [reflexivity | lia].
  - replace (v mod 2 ^ 256) with (v + 2 ^ 256).
    + destruct (Z.ltb_spec (v + 2 ^ 256) (2 ^ 255)); [lia | f_equal; lia].
    + apply Z.mod_unique with (q := -1); lia.
Qed.

(** C8 (defect of the code): the ABI encoding of 0, a value inside the signed
    224-bit range, is decoded by the ABI coder to 0, yet [decodeBeaconValue]
    does not return it: the constants module throws a [TypeError] while it
    initializes [INT224_MIN] ([BigInt(2).pow] is not a function), so for
    every input the call ends in that error instead of a value or [null]. *)
Theorem decodeBeaconValue_throws_at_load :
  abi_decode_int256 (abi_encode_int256 0) = Ok 0 /\
  decodeBeaconValue (abi_encode_int256 0)
  = Throw (TypeError "BigInt(...).pow is not a function") /\
  forall data : list Byte.byte,
    decodeBeaconValue data
    = Throw (TypeError "BigInt(...).pow is not a function").
Proof.
  split; [reflexivity|]. split; [reflexivity|]. intros data. reflexivity.
Qed.

End BeaconValue.

(** ** The registry batch plan *)

Section BatchPlan.
Import UpdateFeeds.

Lemma Qceiling_frac (n : Z) (d : positive) : Qceiling (n # d) = - (- n / Zpos d).
Proof. reflexivity. Qed.

Lemma batchesCount_le_1 (t : Z) (p : positive) :
  Qle_bool (inject_Z t / inject_Z (Zpos p)) (inject_Z 1) = (t <=? Zpos p).
Proof.
  unfold Qle_bool, Qdiv, Qmult, Qinv, inject_Z. simpl.
  rewrite !Z.mul_1_r. reflexivity.
Qed.

Lemma range_batches (t : Z) (p : positive) :
  0 <= t ->
  Lodash.range 1 (inject_Z t / inject_Z (Zpos p))
  = seqZ 1 (if t <? Zpos p then 1 else (t + Zpos p - 1) / Zpos p - 1).
Proof.
  intros Ht. unfold Lodash.range.
  rewrite batchesCount_le_1.
  destruct (Z.leb_spec t (Zpos p)) as [Hle|Hgt].
  - assert (E : ((inject_Z t / inject_Z (Zpos p) - inject_Z 1) / inject_Z (-1)
                 == (Zpos p - t) # p)%Q).
    { unfold Qeq, Qdiv, Qminus, Qplus, Qmult, Qinv, Qopp, inject_Z. simpl. lia. }
    rewrite E, Qceiling_frac.
    destruct (Z.ltb_spec t (Zpos p)) as [Hlt|Hge].
    + replace (- (- (Zpos p - t) / Zpos p)) with 1.
      * reflexivity.
      * assert (- (Zpos p - t) / Zpos p = -1); [|lia].
        symmetry. apply Z.div_unique with (r := t); lia.
    + replace (Zpos p - t) with 0 by lia. simpl.
      replace ((t + Zpos p - 1) / Zpos p - 1) with 0; [reflexivity|].
      assert ((t + Zpos p - 1) / Zpos p = 1); [|lia].
      symmetry. apply Z.div_unique with (r := Zpos p - 1); lia.
  - assert (E : ((inject_Z t / inject_Z (Zpos p) - inject_Z 1) / inject_Z 1
                 == (t - Zpos p) # p)%Q).
    { unfold Qeq, Qdiv, Qminus, Qplus, Qmult, Qinv, Qopp, inject_Z. simpl. lia. }
    rewrite E, Qceiling_frac.
    destruct (Z.ltb_spec t (Zpos p)) as [Hlt|_]; [lia|].
    assert (Hc : - (- (t - Zpos p) / Zpos p) = (t + Zpos p - 1) / Zpos p - 1).
    { pose proof (Z.div_mod (- (t - Zpos p)) (Zpos p) ltac:(lia)) as H1.
      pose proof (Z.mod_pos_bound (- (t - Zpos p)) (Zpos p) ltac:(lia)) as H2.
      assert ((t + Zpos p - 1) / Zpos p = - (- (t - Zpos p) / Zpos p) + 1); [|lia].
      symmetry.
      apply Z.div_unique
        with (r := Zpos p - 1 - (- (t - Zpos p)) mod Zpos p); lia. }
    rewrite Hc.
    assert (0 <= (t + Zpos p - 1) / Zpos p - 1).
    { assert (2 <= (t + Zpos p - 1) / Zpos p); [|lia].
      apply Z.div_le_lower_bound; lia. }
    rewrite Z.max_l by lia.
    rewrite <- (fmap_add_seqZ 1 0).
    apply list_fmap_ext. intros _ x _. lia.
Qed.

(** Consecutive pages of size [B] put together are a prefix of the list. *)
Lemma pages_concat {A} (l : list A) (B : Z) (n : nat) :
  0 < B ->
  concat ((fun i => take (Z.to_nat B) (drop (Z.to_nat (i * B)) l))
            <$> seqZ 0 (Z.of_nat n))
  = take (n * Z.to_nat B) l.
Proof.
  intros HB. induction n as [|n IH].
  - reflexivity.
  - rewrite seqZ_S, fmap_app, concat_app, IH. simpl.
    rewrite app_nil_r.
    replace (Z.to_nat ((0 + Z.of_nat n) * B)) with (n * Z.to_nat B)%nat by nia.
    rewrite take_take_drop. f_equal. lia.
Qed.

Section Cycle.
Context {Dapi State : Type}.
Variables (reg : Registry Dapi) (B : Z) (staggerTime : Q).
Hypothesis reads_ok : forall o l, readDapis_error reg o l = None.

Let page (i : Z) : list Dapi :=
  take (Z.to_nat B) (drop (Z.to_nat (i * B)) (dapis reg)).

Lemma readDapis_ok o l :
  readDapis reg o l = Ok (take (Z.to_nat l) (drop (Z.to_nat o) (dapis reg))).
Proof. unfold readDapis. rewrite reads_ok. reflexivity. Qed.

Lemma otherBatches_fulfilled (indices : list Z) :
  omap (fun r : result (list Dapi) * list (event Dapi) =>
          match r.1 with Ok batch => Some batch | Throw _ => None end)
       (fetchOtherBatch reg B staggerTime <$> indices)
  = page <$> indices.
Proof.
  induction indices as [|i indices IH]; [reflexivity|].
  rewrite fmap_cons. cbn [omap list_omap]. unfold fetchOtherBatch at 1.
  cbn [fst]. rewrite readDapis_ok. cbn. f_equal. exact IH.
Qed.

Lemma otherBatches_no_error (indices : list Z) :
  omap (fun r : result (list Dapi) * list (event Dapi) =>
          match r.1 with
          | Throw _ =>
              Some (Log (Dapi:=Dapi) Err "Failed to get active dAPIs batch")
          | Ok _ => None
          end)
       (fetchOtherBatch reg B staggerTime <$> indices)
  = [].
Proof.
  induction indices as [|i indices IH]; [reflexivity|].
  rewrite fmap_cons. cbn [omap list_omap]. unfold fetchOtherBatch at 1.
  cbn [fst]. rewrite readDapis_ok. exact IH.
Qed.

Lemma otherBatches_reads (indices : list Z) :
  issuedReads
    (((fetchOtherBatch reg B staggerTime <$> indices)
      : list (result (list Dapi) * list (event Dapi))) ≫= snd)
  = (fun i => (i * B, B)) <$> indices.
Proof.
  induction indices as [|i indices IH]; [reflexivity|].
  rewrite !fmap_cons, bind_cons. unfold issuedReads in *.
  rewrite omap_app, IH. reflexivity.
Qed.

Lemma otherBatches_processed (indices : list Z) :
  processedBatches
    (((fetchOtherBatch reg B staggerTime <$> indices)
      : list (result (list Dapi) * list (event Dapi))) ≫= snd)
  = [].
Proof.
  induction indices as [|i indices IH]; [reflexivity|].
  rewrite !fmap_cons, bind_cons. unfold processedBatches in *.
  rewrite omap_app, IH. reflexivity.
Qed.

End Cycle.

Lemma processBatches_events {Dapi State} (batches : list (list Dapi)) (s : State) :
  processBatches batches s = (s, ProcessBatch <$> batches).
Proof.
  unfold processBatches.
  assert (G : forall evs,
    foldl (fun '(s, evs) batch =>
             let '(s', evs') := processBatch (State:=State) batch s in
             (s', evs ++ evs'))
          (s, evs) batches
    = (s, evs ++ (ProcessBatch <$> batches))).
  { induction batches as [|b bs IH]; intros evs; simpl.
    - by rewrite app_nil_r.
    - rewrite IH, <- app_assoc. reflexivity. }
  apply (G []).
Qed.

Lemma processedBatches_app {Dapi} (evs1 evs2 : list (event Dapi)) :
  processedBatches (evs1 ++ evs2)
  = processedBatches evs1 ++ processedBatches evs2.
Proof. apply omap_app. Qed.

Lemma issuedReads_app {Dapi} (evs1 evs2 : list (event Dapi)) :
  issuedReads (evs1 ++ evs2) = issuedReads evs1 ++ issuedReads evs2.
Proof. apply omap_app. Qed.

Lemma processedBatches_ProcessBatch {Dapi} (batches : list (list Dapi)) :
  processedBatches (ProcessBatch <$> batches) = batches.
Proof. induction batches as [|b bs IH]; [done|]. cbn. by f_equal. Qed.

Lemma issuedReads_ProcessBatch {Dapi} (batches : list (list Dapi)) :
  issuedReads (ProcessBatch <$> batches) = [].
Proof. induction batches as [|b bs IH]; [done|]. exact IH. Qed.

(** A cycle in which no remote call fails: the state it returns, the
    batches it processes and the pages it requests. *)
Lemma runUpdateFeed_ok {Dapi State} (reg : Registry Dapi)
    (firstBatchDuration : Q) (chain : Chain) (s : State) :
  (forall o l, readDapis_error reg o l = None) ->
  dapisCount_error reg = None ->
  let B := dataFeedBatchSize chain in
  let indices :=
    0 :: Lodash.range 1
           (inject_Z (Z.of_nat (length (dapis reg))) / inject_Z B) in
  let cycle := runUpdateFeed reg firstBatchDuration chain s in
  cycle.1 = s /\
  processedBatches cycle.2
  = (fun i => take (Z.to_nat B) (drop (Z.to_nat (i * B)) (dapis reg)))
      <$> indices /\
  issuedReads cycle.2 = (fun i => (i * B, B)) <$> indices.
Proof.
  intros Hreads Hcount B indices cycle. subst cycle indices.
  unfold runUpdateFeed, goFirstBatch, dapisCount.
  rewrite readDapis_ok by exact Hreads. rewrite Hcount.
  fold B. cbv beta iota zeta delta [processBatch].
  rewrite processBatches_events.
  rewrite otherBatches_fulfilled by exact Hreads.
  rewrite otherBatches_no_error by exact Hreads.
  cbn [fst snd]. split; [reflexivity|].
  rewrite !processedBatches_app, !issuedReads_app.
  rewrite otherBatches_processed, processedBatches_ProcessBatch.
  rewrite otherBatches_reads by exact Hreads.
  rewrite issuedReads_ProcessBatch.
  split; [reflexivity|].
  change (issuedReads (Dapi:=Dapi) []) with (@nil (Z * Z)).
  rewrite !app_nil_r. reflexivity.
Qed.

(** The batch indices of a cycle are 0, 1, ..., n - 1 for some n >= 1
    with n * B >= totalCount. *)
Lemma batch_indices (t : Z) (p : positive) :
  0 <= t ->
  exists n : nat,
    (0 < n)%nat /\ t <= Z.of_nat n * Zpos p /\
    0 :: Lodash.range 1 (inject_Z t / inject_Z (Zpos p)) = seqZ 0 (Z.of_nat n).
Proof.
  intros Ht. rewrite range_batches by exact Ht.
  set (len := if t <? Zpos p then 1 else (t + Zpos p - 1) / Zpos p - 1).
  assert (Hlen : 0 <= len /\ t <= (len + 1) * Zpos p).
  { subst len. destruct (Z.ltb_spec t (Zpos p)) as [Hlt|Hge]; [lia|].
    pose proof (Z.div_mod (t + Zpos p - 1) (Zpos p) ltac:(lia)) as H1.
    pose proof (Z.mod_pos_bound (t + Zpos p - 1) (Zpos p) ltac:(lia)) as H2.
    assert (1 <= (t + Zpos p - 1) / Zpos p) by (apply Z.div_le_lower_bound; lia).
    split; [lia | nia]. }
  exists (Z.to_nat (len + 1)). rewrite Z2Nat.id by lia.
  split; [lia | split; [lia|]].
  rewrite (seqZ_cons 0 (len + 1)) by lia.
  f_equal. f_equal. lia.
Qed.

(** C5: in a cycle whose remote calls all succeed, with batch size B >= 1,
    the pages requested are the first page (offset 0, limit B) and the
    pages (batchIndex * B, B) for batchIndex in range(1, totalCount / B);
    the batches handed on, put together, are the registry's items, each
    once and in registry order; no page is requested twice, and every item
    position lies in the window of exactly one requested page. *)
Theorem runUpdateFeed_batches_cover {Dapi State} (reg : Registry Dapi)
    (firstBatchDuration : Q) (chain : Chain) (s : State) :
  1 <= dataFeedBatchSize chain ->
  (forall o l, readDapis_error reg o l = None) ->
  dapisCount_error reg = None ->
  let B := dataFeedBatchSize chain in
  let totalCount := Z.of_nat (length (dapis reg)) in
  let evs := (runUpdateFeed reg firstBatchDuration chain s).2 in
  issuedReads evs
  = (0, B) :: ((fun batchIndex => (batchIndex * B, B))
                 <$> Lodash.range 1 (inject_Z totalCount / inject_Z B)) /\
  concat (processedBatches evs) = dapis reg /\
  NoDup (issuedReads evs) /\
  forall k, 0 <= k < totalCount ->
    exists r, r ∈ issuedReads evs /\ r.1 <= k < r.1 + r.2 /\
      forall r', r' ∈ issuedReads evs -> r'.1 <= k < r'.1 + r'.2 -> r' = r.
Proof.
  intros HB Hreads Hcount B totalCount evs.
  destruct (runUpdateFeed_ok reg firstBatchDuration chain s Hreads Hcount)
    as (_ & Hproc & Hissued).
  fold B totalCount evs in Hproc, Hissued.
  split; [exact Hissued|].
  rewrite Hproc, Hissued. clear Hproc Hissued evs.
  destruct B as [|p|p] eqn:EB; try lia.
  destruct (batch_indices totalCount p ltac:(lia)) as (n & Hn & Hcover & ->).
  assert (Hinj : Inj (=) (=) (fun i : Z => (i * Zpos p, Zpos p))).
  { intros i j Hij. injection Hij as Hij. nia. }
  split; [|split].
  - rewrite (pages_concat (dapis reg) (Zpos p) n) by lia.
    apply take_ge. subst totalCount. nia.
  - apply (NoDup_fmap_2 _), NoDup_seqZ.
  - intros k Hk.
    pose proof (Z.div_mod k (Zpos p) ltac:(lia)) as H1.
    pose proof (Z.mod_pos_bound k (Zpos p) ltac:(lia)) as H2.
    exists (k / Zpos p * Zpos p, Zpos p). split; [|split].
    + apply list_elem_of_fmap. exists (k / Zpos p). split; [reflexivity|].
      apply elem_of_seqZ. split; [apply Z.div_pos; lia|].
      apply Z.div_lt_upper_bound; lia.
    + simpl. lia.
    + intros r' Hr' Hwin. apply list_elem_of_fmap in Hr' as (i & -> & _).
      simpl in Hwin. f_equal. f_equal.
      apply Z.div_unique with (r := k - i * Zpos p); lia.
Qed.

Lemma runUpdateFeed_batches_cover_witness :
  let evs := (runUpdateFeed registry_up 3 chain_batch2 tt).2 in
  issuedReads evs = [(0, 2); (2, 2); (4, 2)] /\
  concat (processedBatches evs) = ["a"; "b"; "c"; "d"; "e"] /\
  processedBatches evs = [["a"; "b"]; ["c"; "d"]; ["e"]].
Proof.
  destruct (runUpdateFeed_batches_cover registry_up 3 chain_batch2 tt)
    as (Hreads & Hcover & _).
  - simpl. lia.
  - intros o l. reflexivity.
  - reflexivity.
  - split; [exact Hreads | split; [exact Hcover | reflexivity]].
Defined.

(** Whatever its outcome, the first read requests the first page only. *)
Lemma goFirstBatch_events {Dapi} (reg : Registry Dapi) (B : Z) :
  issuedReads (goFirstBatch reg B).2 = [(0, B)] /\
  processedBatches (goFirstBatch reg B).2 = [].
Proof.
  unfold goFirstBatch.
  destruct (readDapis reg 0 B) as [batch|e1]; [|split; reflexivity].
  destruct (dapisCount reg) as [n|e2]; split; reflexivity.
Qed.

(** C6: when the first read of a cycle fails (the first page or the total
    count), [runUpdateFeed] returns the process state it was given, has
    requested no page other than the first, has processed no batch, and
    ends on the error line; a cycle started afterwards is the same as one
    started from the state before. *)
Theorem runUpdateFeed_first_batch_failure {Dapi State} (reg : Registry Dapi)
    (firstBatchDuration : Q) (chain : Chain) (s : State) (e : error) :
  (goFirstBatch reg (dataFeedBatchSize chain)).1 = Throw e ->
  let cycle := runUpdateFeed reg firstBatchDuration chain s in
  cycle.1 = s /\
  issuedReads cycle.2 = [(0, dataFeedBatchSize chain)] /\
  processedBatches cycle.2 = [] /\
  last cycle.2 = Some (Log Err "Failed to get first active dAPIs batch") /\
  forall (reg' : Registry Dapi) (firstBatchDuration' : Q),
    runUpdateFeed reg' firstBatchDuration' chain cycle.1
    = runUpdateFeed reg' firstBatchDuration' chain s.
Proof.
  intros Hfail cycle. subst cycle. unfold runUpdateFeed.
  pose proof (goFirstBatch_events reg (dataFeedBatchSize chain))
    as [Hreads Hproc].
  destruct (goFirstBatch reg (dataFeedBatchSize chain)) as [goFirst ev1].
  simpl in Hfail, Hreads, Hproc. subst goFirst. cbn [fst snd].
  rewrite !issuedReads_app, !processedBatches_app, Hreads, Hproc.
  rewrite (app_assoc _ ev1), last_snoc.
  repeat split.
Qed.

Lemma runUpdateFeed_first_batch_failure_witness :
  runUpdateFeed registry_down 3 chain_batch2 tt
  = (tt, [Log Debug "Fetching first batch of dAPIs batches";
          ReadDapis 0 2;
          Log Err "Failed to get first active dAPIs batch"]) /\
  (runUpdateFeed registry_count_down 3 chain_batch2 tt).1 = tt /\
  issuedReads (runUpdateFeed registry_count_down 3 chain_batch2 tt).2
  = [(0, 2)].
Proof.
  split; [reflexivity|].
  destruct (runUpdateFeed_first_batch_failure
              registry_count_down 3 chain_batch2 tt (Error "provider-error")
              eq_refl) as (Hstate & Hreads & _).
  split; [exact Hstate | exact Hreads].
Defined.

End BatchPlan.

(** ** Merging signed-API URLs *)

Section MergeUrls.
Import UpdateFeeds.

Lemma keepFreshest_lookup (m : gmap string Z) (e : SignedApiUrl) (u : string) (ms : Z) :
  keepFreshest m e !! u = Some ms ->
  m !! u = Some ms \/ (u = url e /\ ms = lastReceivedMs e).
Proof.
  unfold keepFreshest.
  destruct (m !! url e) as [ms0|] eqn:Hm.
  - destruct (ms0 <? lastReceivedMs e); [|auto].
    destruct (decide (url e = u)) as [<-|Hne].
    + rewrite lookup_insert_eq. intros [= <-]. auto.
    + rewrite lookup_insert_ne by exact Hne. auto.
  - destruct (decide (url e = u)) as [<-|Hne].
    + rewrite lookup_insert_eq. intros [= <-]. auto.
    + rewrite lookup_insert_ne by exact Hne. auto.
Qed.

Lemma keepFreshest_keeps (m : gmap string Z) (e : SignedApiUrl) (u : string) (ms0 : Z) :
  m !! u = Some ms0 ->
  exists ms, keepFreshest m e !! u = Some ms /\ ms0 <= ms.
Proof.
  intros Hu. unfold keepFreshest.
  destruct (m !! url e) as [ms1|] eqn:Hm.
  - destruct (Z.ltb_spec ms1 (lastReceivedMs e)) as [Hlt|Hge].
    + destruct (decide (url e = u)) as [Heq|Hne].
      * subst u. rewrite lookup_insert_eq. exists (lastReceivedMs e).
        split; [reflexivity|]. rewrite Hm in Hu. injection Hu as <-. lia.
      * rewrite lookup_insert_ne by exact Hne. exists ms0. split; [exact Hu | lia].
    + exists ms0. split; [exact Hu | lia].
  - destruct (decide (url e = u)) as [Heq|Hne].
    + subst u. congruence.
    + rewrite lookup_insert_ne by exact Hne. exists ms0. split; [exact Hu | lia].
Qed.

Lemma keepFreshest_adds (m : gmap string Z) (e : SignedApiUrl) :
  exists ms, keepFreshest m e !! url e = Some ms /\ lastReceivedMs e <= ms.
Proof.
  unfold keepFreshest.
  destruct (m !! url e) as [ms1|] eqn:Hm.
  - destruct (Z.ltb_spec ms1 (lastReceivedMs e)) as [Hlt|Hge].
    + rewrite lookup_insert_eq. exists (lastReceivedMs e). split; [reflexivity | lia].
    + exists ms1. split; [exact Hm | lia].
  - rewrite lookup_insert_eq. exists (lastReceivedMs e). split; [reflexivity | lia].
Qed.

Lemma merged_lookup (l : list SignedApiUrl) (m : gmap string Z) (u : string) (ms : Z) :
  foldl keepFreshest m l !! u = Some ms ->
  m !! u = Some ms \/ {| url := u; lastReceivedMs := ms |} ∈ l.
Proof.
  revert m. induction l as [|e l IH]; intros m; simpl; [auto|].
  intros H. apply IH in H as [H|H].
  - apply keepFreshest_lookup in H as [H|[-> ->]]; [auto|].
    right. destruct e. apply elem_of_cons. auto.
  - right. apply elem_of_cons. auto.
Qed.

Lemma merged_keeps (l : list SignedApiUrl) (m : gmap string Z) (u : string) (ms0 : Z) :
  m !! u = Some ms0 ->
  exists ms, foldl keepFreshest m l !! u = Some ms /\ ms0 <= ms.
Proof.
  revert m ms0. induction l as [|e l IH]; intros m ms0 Hu; simpl.
  - exists ms0. split; [exact Hu | lia].
  - destruct (keepFreshest_keeps m e u ms0 Hu) as (ms1 & H1 & Hle1).
    destruct (IH _ _ H1) as (ms & H & Hle). exists ms. split; [exact H | lia].
Qed.

Lemma merged_adds (l : list SignedApiUrl) (m : gmap string Z) (e : SignedApiUrl) :
  e ∈ l ->
  exists ms, foldl keepFreshest m l !! url e = Some ms /\ lastReceivedMs e <= ms.
Proof.
  revert m. induction l as [|e' l IH]; intros m Hin; simpl.
  - by apply elem_of_nil in Hin.
  - apply elem_of_cons in Hin as [->|Hin].
    + destruct (keepFreshest_adds m e') as (ms1 & H1 & Hle1).
      destruct (merged_keeps l _ _ _ H1) as (ms & H & Hle).
      exists ms. split; [exact H | lia].
    + apply IH. exact Hin.
Qed.

Lemma elem_of_mergeUrls (A B : list SignedApiUrl) (e : SignedApiUrl) :
  e ∈ mergeUrls A B <->
  foldl keepFreshest ∅ (A ++ B) !! url e = Some (lastReceivedMs e).
Proof.
  unfold mergeUrls. rewrite list_elem_of_fmap. split.
  - intros ([u ms] & -> & Hin). simpl. by apply elem_of_map_to_list.
  - intros H. exists (url e, lastReceivedMs e). split.
    + by destruct e.
    + by apply elem_of_map_to_list.
Qed.

Lemma mergeUrls_urls (A B : list SignedApiUrl) :
  url <$> mergeUrls A B = (map_to_list (foldl keepFreshest ∅ (A ++ B))).*1.
Proof.
  unfold mergeUrls. rewrite <- list_fmap_compose.
  apply list_fmap_ext. intros _ [u ms] _. reflexivity.
Qed.

(** C7: the merge of two lists of URL entries has exactly one entry per
    URL that occurs in either input; each entry of the merge is an entry of
    one of the inputs, and no input entry with the same URL was received
    later.  Merging "one"@100, "three"@3 with "one"@1, "two"@2 gives
    "one"@100, "three"@3, "two"@2, compared as sets. *)
Theorem mergeUrls_union_freshest (A B : list SignedApiUrl) :
  NoDup (url <$> mergeUrls A B) /\
  (forall u : string,
     u ∈ url <$> mergeUrls A B <-> u ∈ url <$> A \/ u ∈ url <$> B) /\
  (forall e : SignedApiUrl,
     e ∈ mergeUrls A B ->
     (e ∈ A \/ e ∈ B) /\
     forall e' : SignedApiUrl,
       e' ∈ A \/ e' ∈ B -> url e' = url e ->
       lastReceivedMs e' <= lastReceivedMs e) /\
  mergeUrls
    [ {| url := "one"; lastReceivedMs := 100 |};
      {| url := "three"; lastReceivedMs := 3 |} ]
    [ {| url := "one"; lastReceivedMs := 1 |};
      {| url := "two"; lastReceivedMs := 2 |} ]
  ≡ₚ [ {| url := "one"; lastReceivedMs := 100 |};
       {| url := "three"; lastReceivedMs := 3 |};
       {| url := "two"; lastReceivedMs := 2 |} ].
Proof.
  split; [|split; [|split]].
  - rewrite mergeUrls_urls. apply NoDup_fst_map_to_list.
  - intros u. rewrite <- elem_of_app, <- fmap_app. split.
    + intros (e & -> & He)%list_elem_of_fmap.
      apply elem_of_mergeUrls, merged_lookup in He as [He|He].
      * by apply lookup_empty_Some in He.
      * apply list_elem_of_fmap. eexists. split; [|exact He]. reflexivity.
    + intros (e & -> & He)%list_elem_of_fmap.
      destruct (merged_adds (A ++ B) ∅ e He) as (ms & Hms & _).
      apply list_elem_of_fmap.
      exists {| url := url e; lastReceivedMs := ms |}.
      split; [reflexivity|]. by apply elem_of_mergeUrls.
  - intros e He. apply elem_of_mergeUrls in He. split.
    + apply elem_of_app. apply merged_lookup in He as [He|He].
      * by apply lookup_empty_Some in He.
      * by destruct e.
    + intros e' He' Hurl. apply elem_of_app in He'.
      destruct (merged_adds (A ++ B) ∅ e' He') as (ms & Hms & Hle).
      rewrite Hurl, He in Hms. injection Hms as <-. exact Hle.
  - vm_compute. apply perm_skip, perm_swap.
Qed.

Lemma mergeUrls_union_freshest_witness :
  let existingUrls := [ {| url := "one"; lastReceivedMs := 100 |};
                        {| url := "three"; lastReceivedMs := 3 |} ] in
  let freshUrls := [ {| url := "one"; lastReceivedMs := 1 |};
                     {| url := "two"; lastReceivedMs := 2 |} ] in
  "two" ∈ url <$> mergeUrls existingUrls freshUrls /\
  NoDup (url <$> mergeUrls existingUrls freshUrls).
Proof.
  intros existingUrls freshUrls.
  destruct (mergeUrls_union_freshest existingUrls freshUrls)
    as (Hnodup & Hunion & _).
  split; [|exact Hnodup].
  apply Hunion. right. simpl. repeat constructor.
Defined.

End MergeUrls.

(** ** The fetcher's timer *)

Section FetcherTimer.
Import DataFetcher.
Context {DataStore SignedData : Type}.
Variables
  (airnode templateId : SignedData -> string)
  (response : string -> result (list SignedData))
  (getBeaconsForActiveDapis : State -> list Beacon)
  (setStoreDataPoint : SignedData -> DataStore -> DataStore)
  (purgeInactiveDataPoints : State -> DataStore -> DataStore).

Abbreviation World := (@World DataStore).
Abbreviation run :=
  (runDataFetcher airnode templateId response getBeaconsForActiveDapis
     setStoreDataPoint purgeInactiveDataPoints).
Abbreviation perform_call :=
  (perform airnode templateId response getBeaconsForActiveDapis
     setStoreDataPoint purgeInactiveDataPoints).

Lemma fetchUrl_control activeBeacons (w : World) u :
  control (fetchUrl airnode templateId response setStoreDataPoint
             activeBeacons w u)
  = control w.
Proof.
  unfold fetchUrl. destruct (callSignedDataApi response u) as [payload|e].
  - generalize (filter
      (fun signedData =>
         Exists (fun beacon =>
                   airnodeAddress beacon = airnode signedData /\
                   beaconTemplateId beacon = templateId signedData)
                activeBeacons) payload).
    intros l. revert w. induction l as [|x l IH]; intros w; simpl; [done|].
    rewrite IH. reflexivity.
  - reflexivity.
Qed.

Lemma fetchUrls_control activeBeacons urls (w : World) :
  control (foldl (fetchUrl airnode templateId response setStoreDataPoint
                    activeBeacons) w urls)
  = control w.
Proof.
  revert w. induction urls as [|u urls IH]; intros w; simpl; [done|].
  rewrite IH. apply fetchUrl_control.
Qed.

Lemma runDataFetcher_registered (w : World) h :
  dataFetcherInterval (state w) = Some h ->
  state (run w) = state w /\ timers (run w) = timers w.
Proof.
  intros Hh. unfold runDataFetcher. simpl. rewrite Hh. simpl.
  pose proof (fetchUrls_control) as Hc. unfold control in Hc.
  match goal with
  | |- context [foldl ?f ?w0 ?us] =>
      specialize (Hc (getBeaconsForActiveDapis (state w)) us w0)
  end.
  simpl in Hc. injection Hc as Hs Ht _. rewrite Hs, Ht. split; reflexivity.
Qed.

Lemma runDataFetcher_unregistered (w : World) :
  dataFetcherInterval (state w) = None ->
  timers (run w)
  = timers w ++ [{| handle := nextHandle w;
                    period_ms := (signedDataFetchInterval (state w) * 1000)%Q |}]
  /\ dataFetcherInterval (state (run w)) = Some (nextHandle w).
Proof.
  intros Hh. unfold runDataFetcher. simpl. rewrite Hh. simpl.
  pose proof (fetchUrls_control) as Hc. unfold control in Hc.
  match goal with
  | |- context [foldl ?f ?w0 ?us] =>
      specialize (Hc (getBeaconsForActiveDapis
                        {| signedDataFetchInterval := signedDataFetchInterval (state w);
                           signedApiUrlStore := signedApiUrlStore (state w);
                           dataFetcherInterval := Some (nextHandle w) |}) us w0)
  end.
  simpl in Hc. injection Hc as Hs Ht _. rewrite Hs, Ht. split; reflexivity.
Qed.

(** Every live timer is the one recorded in process state, and there is at
    most one. *)
Let timer_inv (w : World) : Prop :=
  (length (timers w) <= 1)%nat /\
  forall t, t ∈ timers w -> dataFetcherInterval (state w) = Some (handle t).

Lemma perform_timer_inv (w : World) (c : call) :
  timer_inv w -> timer_inv (perform_call w c).
Proof.
  intros [Hlen Hrec]. destruct c; unfold perform.
  - destruct (dataFetcherInterval (state w)) as [h|] eqn:Hh.
    + destruct (runDataFetcher_registered w h Hh) as [Hs Ht].
      unfold timer_inv. rewrite Ht, Hs. split; [exact Hlen|].
      intros t Hin. rewrite Hh. exact (Hrec t Hin).
    + destruct (runDataFetcher_unregistered w Hh) as [Ht Hs].
      assert (Hnil : timers w = []).
      { destruct (timers w) as [|t ts]; [done|].
        specialize (Hrec t ltac:(left)). congruence. }
      unfold timer_inv. rewrite Ht, Hs, Hnil. simpl. split; [lia|].
      intros t Hin. apply list_elem_of_singleton in Hin as ->. reflexivity.
  - unfold stopDataFetcher, clearInterval.
    destruct (dataFetcherInterval (state w)) as [h|] eqn:Hh.
    + unfold timer_inv. simpl. split.
      * pose proof (length_filter (fun t => handle t <> h) (timers w)). lia.
      * intros t Hin. apply list_elem_of_filter in Hin as [Hne Hin].
        specialize (Hrec t Hin). congruence.
    + split; [exact Hlen|]. rewrite Hh. exact Hrec.
Qed.

(** C9: a run of [runDataFetcher] that finds a timer handle in process
    state leaves the handle and the set of timers as they are; a run that
    finds none registers one timer and records its handle; and a process
    that starts without a handle and without a timer never has more than
    one fetcher timer, whatever runs and stops follow. *)
Theorem runDataFetcher_single_timer (w : World) :
  (forall h, dataFetcherInterval (state w) = Some h ->
     dataFetcherInterval (state (run w)) = Some h /\
     timers (run w) = timers w) /\
  (dataFetcherInterval (state w) = None ->
     exists t, timers (run w) = timers w ++ [t] /\
               dataFetcherInterval (state (run w)) = Some (handle t)) /\
  (dataFetcherInterval (state w) = None -> timers w = [] ->
     forall calls : list call,
       (length (timers (foldl perform_call w calls)) <= 1)%nat).
Proof.
  split; [|split].
  - intros h Hh. destruct (runDataFetcher_registered w h Hh) as [Hs Ht].
    rewrite Hs, Ht. split; [exact Hh | reflexivity].
  - intros Hh. destruct (runDataFetcher_unregistered w Hh) as [Ht Hs].
    eexists. split; [exact Ht | exact Hs].
  - intros Hh Hnil calls.
    assert (Hinv : timer_inv w).
    { unfold timer_inv. rewrite Hnil. split; [simpl; lia|].
      intros t Hin. by apply elem_of_nil in Hin. }
    clear Hh Hnil. revert w Hinv.
    induction calls as [|c calls IH]; intros w Hinv; simpl.
    + apply Hinv.
    + apply IH, perform_timer_inv, Hinv.
Qed.

End FetcherTimer.

Section FetcherTimerWitness.
Import DataFetcher.

Lemma runDataFetcher_single_timer_witness :
  let run := runDataFetcher (fun _ : unit => "") (fun _ => "")
               (fun _ => Ok []) (fun _ => []) (fun _ d => d) (fun _ d => d) in
  let first := run world_at_start in
  timers first = [{| handle := 1%nat; period_ms := (10 * 1000)%Q |}] /\
  dataFetcherInterval (state first) = Some 1%nat /\
  timers (run first) = timers first /\
  dataFetcherInterval (state (run first)) = Some 1%nat /\
  (length (timers (run (run first))) <= 1)%nat.
Proof.
  intros run first.
  pose proof (runDataFetcher_single_timer
                (DataStore:=unit) (SignedData:=unit)
                (fun _ => "") (fun _ => "") (fun _ => Ok [])
                (fun _ => []) (fun _ d => d) (fun _ d => d)) as H.
  split; [reflexivity|]. split; [reflexivity|].
  destruct (H first) as (Hreg & _ & _).
  destruct (Hreg 1%nat eq_refl) as [Hhandle Htimers].
  split; [exact Htimers|]. split; [exact Hhandle|].
  destruct (H world_at_start) as (_ & _ & Hone).
  apply (Hone eq_refl eq_refl [RunDataFetcher; RunDataFetcher; RunDataFetcher]).
Defined.

End FetcherTimerWitness.

(** * Further properties of the update-necessity engine *)

Section Deviation.
Import Constants Utils DeviationCheck.

(** The percentage as an integer, for every input: the division is only
    reached with a non-zero divisor. *)
Lemma calculateDeviationPercentage_value
    (initialValue updatedValue deviationReference : Z) :
  calculateDeviationPercentage initialValue updatedValue deviationReference
  = Ok (if Z.abs (updatedValue - initialValue) =? 0 then 0
        else if Z.abs (deviationReference - initialValue) =? 0 then UINT256_MAX
        else Z.abs (updatedValue - initialValue) * HUNDRED_PERCENT
             / Z.abs (deviationReference - initialValue)).
Proof.
  unfold calculateDeviationPercentage, bigint_div. rewrite !abs_spec.
  destruct (Z.eqb_spec (Z.abs (updatedValue - initialValue)) 0); [reflexivity|].
  destruct (Z.eqb_spec (Z.abs (deviationReference - initialValue)) 0);
    [reflexivity|].
  rewrite Z.quot_div_nonneg; [reflexivity | unfold HUNDRED_PERCENT; lia | lia].
Qed.

(** X1: [calculateDeviationPercentage] never throws (the bigint division is
    never reached with a zero divisor) and never returns a negative
    percentage. *)
Theorem calculateDeviationPercentage_nonneg
    (initialValue updatedValue deviationReference : Z) :
  exists percentage,
    calculateDeviationPercentage initialValue updatedValue deviationReference
    = Ok percentage /\ 0 <= percentage.
Proof.
  rewrite calculateDeviationPercentage_value. eexists. split; [reflexivity|].
  destruct (Z.abs (updatedValue - initialValue) =? 0); [lia|].
  destruct (Z.eqb_spec (Z.abs (deviationReference - initialValue)) 0).
  - apply Z.leb_le. reflexivity.
  - apply Z.div_pos; unfold HUNDRED_PERCENT; lia.
Qed.

(** X2: The percentage does not depend on the direction of the move, nor on the
    side of the initial value the reference lies on: moving up by [d] and
    moving down by [d] deviate equally, and so do references [e] above and
    [e] below. *)
Theorem calculateDeviationPercentage_symmetric (initialValue d e : Z) :
  calculateDeviationPercentage initialValue (initialValue + d) (initialValue + e)
  = calculateDeviationPercentage initialValue (initialValue - d) (initialValue + e)
  /\
  calculateDeviationPercentage initialValue (initialValue + d) (initialValue + e)
  = calculateDeviationPercentage initialValue (initialValue + d) (initialValue - e).
Proof.
  rewrite !calculateDeviationPercentage_value.
  replace (Z.abs (initialValue - d - initialValue))
    with (Z.abs (initialValue + d - initialValue)) by lia.
  replace (Z.abs (initialValue - e - initialValue))
    with (Z.abs (initialValue + e - initialValue)) by lia.
  split; reflexivity.
Qed.

(** Comparing the truncated quotient with a threshold is comparing the
    exact ratio with it. *)
Lemma quotient_reaches_threshold (a b threshold : Z) :
  0 < b ->
  (a / b >=? threshold) = (threshold * b <=? a).
Proof.
  intros Hb.
  destruct (Z.leb_spec (threshold * b) a) as [Hle|Hgt].
  - apply Z.geb_le. apply Z.div_le_lower_bound; lia.
  - destruct (Z.geb_spec (a / b) threshold) as [Hge|Hlt]; [|reflexivity].
    pose proof (Z.mul_div_le a b Hb). nia.
Qed.

(** X3: With distinct values and a reference different from the on-chain value,
    the threshold is exceeded exactly when the exact ratio reaches it:
    [threshold * |reference - onChain| <= |api - onChain| * 10^8].  The
    truncation of the quotient never changes the decision. *)
Theorem isDeviationThresholdExceeded_exact
    (onChainValue deviationThreshold apiValue deviationReference : Z) :
  apiValue <> onChainValue ->
  deviationReference <> onChainValue ->
  isDeviationThresholdExceeded
    onChainValue deviationThreshold apiValue deviationReference
  = Ok (deviationThreshold * Z.abs (deviationReference - onChainValue)
        <=? Z.abs (apiValue - onChainValue) * 10 ^ 8).
Proof.
  intros Hvalue Hreference. unfold isDeviationThresholdExceeded.
  rewrite calculateDeviationPercentage_value. simpl.
  destruct (Z.eqb_spec (Z.abs (apiValue - onChainValue)) 0); [lia|].
  destruct (Z.eqb_spec (Z.abs (deviationReference - onChainValue)) 0); [lia|].
  f_equal. change HUNDRED_PERCENT with (10 ^ 8).
  apply quotient_reaches_threshold. lia.
Qed.

Lemma isDeviationThresholdExceeded_exact_witness :
  isDeviationThresholdExceeded 100 1000000 101 0 = Ok true /\
  isDeviationThresholdExceeded 300 1000000 302 0 = Ok false.
Proof.
  split.
  - apply (isDeviationThresholdExceeded_exact 100 1000000 101 0); lia.
  - apply (isDeviationThresholdExceeded_exact 300 1000000 302 0); lia.
Defined.

(** X4: Lowering the threshold never turns an exceeded deviation into one that
    is not exceeded. *)
Theorem isDeviationThresholdExceeded_antitone
    (onChainValue deviationThreshold deviationThreshold' apiValue
     deviationReference : Z) :
  deviationThreshold' <= deviationThreshold ->
  isDeviationThresholdExceeded
    onChainValue deviationThreshold apiValue deviationReference = Ok true ->
  isDeviationThresholdExceeded
    onChainValue deviationThreshold' apiValue deviationReference = Ok true.
Proof.
  intros Hle. unfold isDeviationThresholdExceeded.
  rewrite calculateDeviationPercentage_value. simpl.
  intros [= H]. f_equal. apply Z.geb_le in H. apply Z.geb_le. lia.
Qed.

Lemma isDeviationThresholdExceeded_antitone_witness :
  isDeviationThresholdExceeded 100 500000 101 0 = Ok true.
Proof.
  apply (isDeviationThresholdExceeded_antitone 100 1000000 500000 101 0);
    [lia | reflexivity].
Defined.

(** X5: On-chain data that is fresh stays fresh when looked at earlier or with a
    longer heartbeat interval; so data that is stale stays stale as the
    clock advances. *)
Theorem isOnChainDataFresh_monotone
    (nowMs nowMs' timestamp heartbeatInterval heartbeatInterval' : Z) :
  nowMs' <= nowMs ->
  heartbeatInterval <= heartbeatInterval' ->
  isOnChainDataFresh nowMs timestamp heartbeatInterval = true ->
  isOnChainDataFresh nowMs' timestamp heartbeatInterval' = true.
Proof.
  unfold isOnChainDataFresh, floor_div_1000. intros Hnow Hhb H.
  apply Z.gtb_lt in H. apply Z.gtb_lt.
  pose proof (Z.div_le_mono nowMs' nowMs 1000 ltac:(lia) Hnow). lia.
Qed.

Lemma isOnChainDataFresh_monotone_witness :
  isOnChainDataFresh 1699999999999 1699999950 86400 = true.
Proof.
  apply (isOnChainDataFresh_monotone 1700000000000 1699999999999 1699999950 60 86400);
    [lia | lia | reflexivity].
Defined.

End Deviation.

Section Decision.
Import Constants Utils DeviationCheck.

(** X6: [isDataFeedUpdatable] never throws: for every input and every clock
    value it returns a boolean. *)
Theorem isDataFeedUpdatable_never_throws
    (nowMs onChainValue onChainTimestamp offChainValue offChainTimestamp
     heartbeatInterval deviationThreshold deviationReference : Z) :
  exists updatable : bool,
    (isDataFeedUpdatable nowMs onChainValue onChainTimestamp offChainValue
       offChainTimestamp heartbeatInterval deviationThreshold
       deviationReference).1
    = Ok updatable.
Proof.
  unfold isDataFeedUpdatable.
  destruct (offChainTimestamp <=? onChainTimestamp); [eexists; reflexivity|].
  destruct (onChainTimestamp =? 0); [eexists; reflexivity|].
  destruct (isOnChainDataFresh nowMs onChainTimestamp heartbeatInterval).
  - destruct (deviationThreshold =? 0); [eexists; reflexivity|].
    unfold isDeviationThresholdExceeded.
    rewrite calculateDeviationPercentage_value. simpl.
    match goal with |- context [?x >=? ?y] => destruct (x >=? y) end;
      eexists; reflexivity.
  - destruct (heartbeatInterval =? 0); eexists; reflexivity.
Qed.

(** X7: An off-chain sample that is not strictly newer than the on-chain data
    never makes the feed updatable, whatever the values, the policy and the
    clock; a warning is logged exactly when the sample is strictly older. *)
Theorem isDataFeedUpdatable_not_newer
    (nowMs onChainValue onChainTimestamp offChainValue offChainTimestamp
     heartbeatInterval deviationThreshold deviationReference : Z) :
  offChainTimestamp <= onChainTimestamp ->
  isDataFeedUpdatable nowMs onChainValue onChainTimestamp offChainValue
    offChainTimestamp heartbeatInterval deviationThreshold deviationReference
  = (Ok false,
     if offChainTimestamp <? onChainTimestamp
     then [LogEntry Warn
             "Off-chain sample's timestamp is older than on-chain timestamp."]
     else []).
Proof.
  intros Hstale. unfold isDataFeedUpdatable.
  destruct (Z.leb_spec offChainTimestamp onChainTimestamp); [reflexivity | lia].
Qed.

Lemma isDataFeedUpdatable_not_newer_witness :
  isDataFeedUpdatable 1700000000000 100 1699999990 900 1699999990 1 1 0
  = (Ok false, []) /\
  isDataFeedUpdatable 1700000000000 100 1699999990 900 1699999980 1 1 0
  = (Ok false,
     [LogEntry Warn
        "Off-chain sample's timestamp is older than on-chain timestamp."]).
Proof.
  split.
  - apply (isDataFeedUpdatable_not_newer
             1700000000000 100 1699999990 900 1699999990 1 1 0). lia.
  - apply (isDataFeedUpdatable_not_newer
             1700000000000 100 1699999990 900 1699999980 1 1 0). lia.
Defined.

(** X8: Heartbeat-forced update: when the off-chain sample is newer, the
    on-chain slot is initialized, the on-chain data is no longer fresh and
    the heartbeat interval is not zero, the feed is updatable whatever the
    two values, the deviation threshold and the deviation reference are. *)
Theorem isDataFeedUpdatable_heartbeat
    (nowMs onChainValue onChainTimestamp offChainValue offChainTimestamp
     heartbeatInterval deviationThreshold deviationReference : Z) :
  onChainTimestamp < offChainTimestamp ->
  onChainTimestamp <> 0 ->
  heartbeatInterval <> 0 ->
  isOnChainDataFresh nowMs onChainTimestamp heartbeatInterval = false ->
  isDataFeedUpdatable nowMs onChainValue onChainTimestamp offChainValue
    offChainTimestamp heartbeatInterval deviationThreshold deviationReference
  = (Ok true,
     [LogEntry Info "On-chain timestamp is older than the heartbeat interval."]).
Proof.
  intros Hnewer Hinit Hhb Hstale. unfold isDataFeedUpdatable.
  destruct (Z.leb_spec offChainTimestamp onChainTimestamp); [lia|].
  destruct (Z.eqb_spec onChainTimestamp 0); [lia|].
  rewrite Hstale.
  destruct (Z.eqb_spec heartbeatInterval 0); [lia | reflexivity].
Qed.

Lemma isDataFeedUpdatable_heartbeat_witness :
  isDataFeedUpdatable 1700000000000 100 1699900000 100 1699999995 86400 0 0
  = (Ok true,
     [LogEntry Info "On-chain timestamp is older than the heartbeat interval."]).
Proof.
  apply (isDataFeedUpdatable_heartbeat
           1700000000000 100 1699900000 100 1699999995 86400 0 0);
    [lia | lia | lia | reflexivity].
Defined.

(** X9: While the on-chain data is fresh, a sample with the same value as the
    on-chain one is never updatable under a positive threshold, however much
    newer it is and whatever the reference is; nothing is logged. *)
Theorem isDataFeedUpdatable_same_value
    (nowMs onChainValue onChainTimestamp offChainTimestamp
     heartbeatInterval deviationThreshold deviationReference : Z) :
  onChainTimestamp < offChainTimestamp ->
  onChainTimestamp <> 0 ->
  0 < deviationThreshold ->
  isOnChainDataFresh nowMs onChainTimestamp heartbeatInterval = true ->
  isDataFeedUpdatable nowMs onChainValue onChainTimestamp onChainValue
    offChainTimestamp heartbeatInterval deviationThreshold deviationReference
  = (Ok false, []).
Proof.
  intros Hnewer Hinit Hthreshold Hfresh. unfold isDataFeedUpdatable.
  destruct (Z.leb_spec offChainTimestamp onChainTimestamp); [lia|].
  destruct (Z.eqb_spec onChainTimestamp 0); [lia|].
  rewrite Hfresh.
  destruct (Z.eqb_spec deviationThreshold 0); [lia|].
  unfold isDeviationThresholdExceeded.
  rewrite calculateDeviationPercentage_value, Z.sub_diag. simpl.
  destruct (Z.geb_spec 0 deviationThreshold); [lia | reflexivity].
Qed.

Lemma isDataFeedUpdatable_same_value_witness :
  isDataFeedUpdatable 1700000000000 100 1699999990 100 1699999995 60 1 100
  = (Ok false, []).
Proof.
  apply (isDataFeedUpdatable_same_value
           1700000000000 100 1699999990 1699999995 60 1 100);
    [lia | lia | lia | reflexivity].
Defined.

(** X10: While the on-chain data is fresh and the threshold is not zero, a newer
    sample with a different value is updatable exactly when the deviation
    reaches the threshold: always for a threshold of at most 2^256 - 1 when
    the reference equals the on-chain value, and otherwise when
    [threshold * |reference - onChain| <= |offChain - onChain| * 10^8]. *)
Theorem isDataFeedUpdatable_deviation
    (nowMs onChainValue onChainTimestamp offChainValue offChainTimestamp
     heartbeatInterval deviationThreshold deviationReference : Z) :
  onChainTimestamp < offChainTimestamp ->
  onChainTimestamp <> 0 ->
  deviationThreshold <> 0 ->
  offChainValue <> onChainValue ->
  isOnChainDataFresh nowMs onChainTimestamp heartbeatInterval = true ->
  (isDataFeedUpdatable nowMs onChainValue onChainTimestamp offChainValue
     offChainTimestamp heartbeatInterval deviationThreshold
     deviationReference).1
  = Ok (if deviationReference =? onChainValue
        then deviationThreshold <=? 2 ^ 256 - 1
        else deviationThreshold * Z.abs (deviationReference - onChainValue)
             <=? Z.abs (offChainValue - onChainValue) * 10 ^ 8).
Proof.
  intros Hnewer Hinit Hthreshold Hvalue Hfresh. unfold isDataFeedUpdatable.
  destruct (Z.leb_spec offChainTimestamp onChainTimestamp); [lia|].
  destruct (Z.eqb_spec onChainTimestamp 0); [lia|].
  rewrite Hfresh.
  destruct (Z.eqb_spec deviationThreshold 0); [lia|].
  destruct (Z.eqb_spec deviationReference onChainValue) as [->|Hreference].
  - unfold isDeviationThresholdExceeded.
    rewrite calculateDeviationPercentage_value, Z.sub_diag. simpl.
    destruct (Z.eqb_spec (Z.abs (offChainValue - onChainValue)) 0); [lia|].
    change UINT256_MAX with (2 ^ 256 - 1).
    rewrite Z.geb_leb.
    destruct (deviationThreshold <=? 2 ^ 256 - 1); reflexivity.
  - unfold isDeviationThresholdExceeded.
    rewrite calculateDeviationPercentage_value. simpl.
    destruct (Z.eqb_spec (Z.abs (offChainValue - onChainValue)) 0); [lia|].
    destruct (Z.eqb_spec (Z.abs (deviationReference - onChainValue)) 0); [lia|].
    change HUNDRED_PERCENT with (10 ^ 8).
    rewrite quotient_reaches_threshold by lia.
    match goal with |- context [?x <=? ?y] => destruct (x <=? y) end;
      reflexivity.
Qed.

Lemma isDataFeedUpdatable_deviation_witness :
  (isDataFeedUpdatable 1700000000000 100 1699999990 101 1699999995 60
     1000000 0).1 = Ok true /\
  (isDataFeedUpdatable 1700000000000 300 1699999990 302 1699999995 60
     1000000 0).1 = Ok false /\
  (isDataFeedUpdatable 1700000000000 300 1699999990 302 1699999995 60
     1000000 300).1 = Ok true.
Proof.
  split; [|split].
  - apply (isDataFeedUpdatable_deviation
             1700000000000 100 1699999990 101 1699999995 60 1000000 0);
      [lia | lia | lia | lia | reflexivity].
  - apply (isDataFeedUpdatable_deviation
             1700000000000 300 1699999990 302 1699999995 60 1000000 0);
      [lia | lia | lia | lia | reflexivity].
  - apply (isDataFeedUpdatable_deviation
             1700000000000 300 1699999990 302 1699999995 60 1000000 300);
      [lia | lia | lia | lia | reflexivity].
Defined.

End Decision.

Section MedianMore.
Import DeviationCheck.

Lemma Sorted_lookup_le (s : list Z) (i j : nat) (a b : Z) :
  Sorted Z.le s -> (i <= j)%nat ->
  s !! i = Some a -> s !! j = Some b -> a <= b.
Proof.
  intros Hs. apply (Sorted_StronglySorted Z.le) in Hs.
  revert i j a b. induction Hs as [|x s Hs IH Hall]; intros i j a b Hij Hi Hj.
  - discriminate Hi.
  - destruct i as [|i], j as [|j]; simpl in Hi, Hj.
    + injection Hi as <-. injection Hj as <-. lia.
    + injection Hi as <-. rewrite Forall_forall in Hall.
      apply Hall. eapply list_elem_of_lookup_2. exact Hj.
    + lia.
    + apply (IH i j); [lia | exact Hi | exact Hj].
Qed.

Lemma truncated_mean_between (a b : Z) :
  a <= b -> a <= Z.quot (a + b) 2 <= b.
Proof.
  intros Hab. Z.to_euclidean_division_equations. lia.
Qed.

(** The value [calculateMedian] returns for a non-empty array, read off any
    sorted arrangement of it. *)
Lemma median_of_sorted_bounds (s : list Z) :
  Sorted Z.le s -> s <> [] ->
  exists m lo hi,
    median_of_sorted s (length s) = Ok m /\ lo ∈ s /\ hi ∈ s /\ lo <= m <= hi.
Proof.
  intros Hs Hne.
  assert (Hpos : (0 < length s)%nat) by (destruct s; [done | simpl; lia]).
  assert (Hmid : (length s / 2 < length s)%nat) by (apply Nat.div_lt; lia).
  destruct (lookup_lt_is_Some_2 s _ Hmid) as [b Hb].
  unfold median_of_sorted. destruct (Nat.even (length s)).
  - assert (Hmid' : (length s / 2 - 1 < length s)%nat) by lia.
    destruct (lookup_lt_is_Some_2 s _ Hmid') as [a Ha].
    rewrite Ha, Hb. simpl.
    exists (Z.quot (a + b) 2), a, b.
    split; [reflexivity|].
    split; [eapply list_elem_of_lookup_2; exact Ha|].
    split; [eapply list_elem_of_lookup_2; exact Hb|].
    apply truncated_mean_between.
    apply (Sorted_lookup_le s (length s / 2 - 1) (length s / 2)); auto; lia.
  - rewrite Hb. exists b, b, b.
    split; [reflexivity|].
    split; [eapply list_elem_of_lookup_2; exact Hb|].
    split; [eapply list_elem_of_lookup_2; exact Hb | lia].
Qed.

(** X11: On a non-empty array [calculateMedian] returns normally, and the median
    lies between two elements of the array: it is never below the minimum
    nor above the maximum, also when the mean of the two middle elements is
    truncated. *)
Theorem calculateMedian_between (h : heap) (arr : loc) (xs : list Z) :
  h !! arr = Some xs -> xs <> [] ->
  exists m lo hi,
    (calculateMedian arr h).1 = Ok m /\ lo ∈ xs /\ hi ∈ xs /\ lo <= m <= hi.
Proof.
  intros Harr Hne.
  rewrite (calculateMedian_nonempty h arr xs Harr Hne). simpl.
  pose proof (sorted_with_perm compareBigint xs) as Hp.
  destruct (median_of_sorted_bounds (sorted_with compareBigint xs))
    as (m & lo & hi & Hm & Hlo & Hhi & Hbounds).
  - apply sorted_with_sorted.
  - intros Hnil. rewrite Hnil in Hp.
    apply Permutation_nil in Hp. contradiction.
  - exists m, lo, hi. rewrite <- (Permutation_length Hp).
    split; [exact Hm|]. rewrite <- Hp. auto.
Qed.

Lemma calculateMedian_between_witness :
  exists m lo hi,
    (calculateMedian 3%nat {[ 3%nat := [0; -3] ]}).1 = Ok m /\
    lo ∈ [0; -3] /\ hi ∈ [0; -3] /\ lo <= m <= hi.
Proof.
  apply (calculateMedian_between {[ 3%nat := [0; -3] ]} 3%nat [0; -3]).
  - apply lookup_singleton_eq.
  - discriminate.
Defined.

(** X12: The median does not depend on the order of the elements: two arrays
    that are permutations of one another, wherever they live, have the same
    median (or both fail, when empty). *)
Theorem calculateMedian_permutation
    (h h' : heap) (arr arr' : loc) (xs ys : list Z) :
  h !! arr = Some xs -> h' !! arr' = Some ys -> xs ≡ₚ ys ->
  (calculateMedian arr h).1 = (calculateMedian arr' h').1.
Proof.
  intros Hxs Hys Hp.
  destruct (decide (xs = [])) as [->|Hne].
  - apply Permutation_nil in Hp. subst ys.
    unfold calculateMedian. rewrite Hxs, Hys. reflexivity.
  - assert (Hne' : ys <> []).
    { intros ->. symmetry in Hp. apply Permutation_nil in Hp. contradiction. }
    rewrite (calculateMedian_nonempty h arr xs Hxs Hne).
    rewrite (calculateMedian_nonempty h' arr' ys Hys Hne'). simpl.
    rewrite (Permutation_length Hp). f_equal.
    apply sorted_with_unique; [apply sorted_with_sorted|].
    rewrite sorted_with_perm. symmetry. exact Hp.
Qed.

Lemma calculateMedian_permutation_witness :
  (calculateMedian 3%nat {[ 3%nat := [4; 1; 3] ]}).1
  = (calculateMedian 5%nat {[ 5%nat := [1; 4; 3] ]}).1.
Proof.
  apply (calculateMedian_permutation _ _ 3%nat 5%nat [4; 1; 3] [1; 4; 3]).
  - apply lookup_singleton_eq.
  - apply lookup_singleton_eq.
  - apply perm_swap.
Defined.

End MedianMore.

(** * Further properties of the update-feed cycle *)

Section CycleTrace.
Import UpdateFeeds.
Context {Dapi State : Type}.
Variables (reg : Registry Dapi) (B : Z) (staggerTime : Q).

Lemma otherBatches_fulfilled_any (indices : list Z) :
  omap (fun r : result (list Dapi) * list (event Dapi) =>
          match r.1 with Ok batch => Some batch | Throw _ => None end)
       (fetchOtherBatch reg B staggerTime <$> indices)
  = page reg B
      <$> filter (fun i => readDapis_error reg (i * B) B = None) indices.
Proof.
  induction indices as [|i indices IH]; [reflexivity|].
  rewrite fmap_cons, filter_cons. cbn [omap list_omap].
  unfold fetchOtherBatch at 1. cbn [fst]. unfold readDapis at 1.
  destruct (readDapis_error reg (i * B) B) as [e|] eqn:He.
  - rewrite decide_False by discriminate. exact IH.
  - rewrite decide_True by reflexivity. rewrite fmap_cons.
    f_equal. exact IH.
Qed.

Lemma otherBatches_rejected_any (indices : list Z) :
  omap (fun r : result (list Dapi) * list (event Dapi) =>
          match r.1 with
          | Throw _ =>
              Some (Log (Dapi:=Dapi) Err "Failed to get active dAPIs batch")
          | Ok _ => None
          end)
       (fetchOtherBatch reg B staggerTime <$> indices)
  = (fun _ => Log Err "Failed to get active dAPIs batch")
      <$> filter (fun i => is_Some (readDapis_error reg (i * B) B)) indices.
Proof.
  induction indices as [|i indices IH]; [reflexivity|].
  rewrite fmap_cons, filter_cons. cbn [omap list_omap].
  unfold fetchOtherBatch at 1. cbn [fst]. unfold readDapis at 1.
  destruct (readDapis_error reg (i * B) B) as [e|] eqn:He.
  - rewrite decide_True by eauto. rewrite fmap_cons. f_equal. exact IH.
  - rewrite decide_False by (intros [? ?]; discriminate). exact IH.
Qed.


Lemma otherBatches_errorLogs (indices : list Z) :
  errorLogs (((fetchOtherBatch reg B staggerTime <$> indices)
              : list (result (list Dapi) * list (event Dapi))) ≫= snd)
  = [].
Proof.
  induction indices as [|i indices IH]; [reflexivity|].
  rewrite !fmap_cons, bind_cons. unfold errorLogs in *.
  rewrite omap_app, IH. reflexivity.
Qed.

End CycleTrace.

Section CycleMore.
Import UpdateFeeds.

(** The trace of a cycle whose first read succeeds. *)
Lemma runUpdateFeed_trace {Dapi State} (reg : Registry Dapi)
    (firstBatchDuration : Q) (chain : Chain) (s : State) :
  readDapis_error reg 0 (dataFeedBatchSize chain) = None ->
  dapisCount_error reg = None ->
  let B := dataFeedBatchSize chain in
  let batchesCount :=
    (inject_Z (Z.of_nat (length (dapis reg))) / inject_Z B)%Q in
  let staggerTime :=
    if Qle_bool batchesCount 1 then 0%Q
    else (dataFeedUpdateInterval chain / batchesCount * 1000)%Q in
  let indices := Lodash.range 1 batchesCount in
  (runUpdateFeed reg firstBatchDuration chain s).2
  = [Log Debug "Fetching first batch of dAPIs batches";
     ReadDapis 0 B; DapisCount; ProcessBatch (page reg B 0);
     Sleep (Qmax 0 (staggerTime - firstBatchDuration));
     Log Debug "Fetching batches of active dAPIs"]
    ++ (((fetchOtherBatch reg B staggerTime <$> indices)
         : list (result (list Dapi) * list (event Dapi))) ≫= snd)
    ++ ((fun _ => Log Err "Failed to get active dAPIs batch")
          <$> filter (fun i => is_Some (readDapis_error reg (i * B) B)) indices)
    ++ (ProcessBatch
          <$> (page reg B
                 <$> filter (fun i => readDapis_error reg (i * B) B = None)
                       indices)).
Proof.
  intros Hfirst Hcount B batchesCount staggerTime indices.
  subst B batchesCount staggerTime indices.
  unfold runUpdateFeed, goFirstBatch, dapisCount.
  unfold readDapis at 1. rewrite Hfirst, Hcount.
  cbv beta iota zeta delta [processBatch].
  rewrite processBatches_events.
  rewrite otherBatches_fulfilled_any, otherBatches_rejected_any.
  reflexivity.
Qed.

Lemma errorLogs_app {Dapi} (evs1 evs2 : list (event Dapi)) :
  errorLogs (evs1 ++ evs2) = errorLogs evs1 ++ errorLogs evs2.
Proof. apply omap_app. Qed.


Lemma observe_rejected {Dapi A} (l : list A) :
  issuedReads ((fun _ => Log (Dapi:=Dapi) Err "Failed to get active dAPIs batch") <$> l) = [] /\
  processedBatches ((fun _ => Log (Dapi:=Dapi) Err "Failed to get active dAPIs batch") <$> l) = [] /\
  sleeps ((fun _ => Log (Dapi:=Dapi) Err "Failed to get active dAPIs batch") <$> l) = [] /\
  errorLogs ((fun _ => Log (Dapi:=Dapi) Err "Failed to get active dAPIs batch") <$> l)
  = replicate (length l) "Failed to get active dAPIs batch".
Proof.
  induction l as [|x l (IH1 & IH2 & IH3 & IH4)]; [done|].
  repeat split; try assumption. cbn. f_equal. exact IH4.
Qed.

Lemma observe_processed {Dapi} (batches : list (list Dapi)) :
  sleeps (ProcessBatch <$> batches) = [] /\
  errorLogs (ProcessBatch <$> batches) = [].
Proof. induction batches as [|b bs [IH1 IH2]]; [done|]. split; assumption. Qed.

(** What a cycle whose first read succeeds requests, processes and logs
    as errors. *)
Lemma runUpdateFeed_observed {Dapi State} (reg : Registry Dapi)
    (firstBatchDuration : Q) (chain : Chain) (s : State) :
  readDapis_error reg 0 (dataFeedBatchSize chain) = None ->
  dapisCount_error reg = None ->
  let B := dataFeedBatchSize chain in
  let indices :=
    Lodash.range 1 (inject_Z (Z.of_nat (length (dapis reg))) / inject_Z B) in
  let evs := (runUpdateFeed reg firstBatchDuration chain s).2 in
  issuedReads evs = (fun i => (i * B, B)) <$> (0 :: indices) /\
  processedBatches evs
  = page reg B 0
    :: (page reg B
          <$> filter (fun i => readDapis_error reg (i * B) B = None) indices) /\
  errorLogs evs
  = replicate
      (length (filter (fun i => is_Some (readDapis_error reg (i * B) B)) indices))
      "Failed to get active dAPIs batch".
Proof.
  intros Hfirst Hcount B indices evs. subst evs.
  rewrite (runUpdateFeed_trace reg firstBatchDuration chain s Hfirst Hcount).
  fold B. fold indices.
  rewrite !issuedReads_app, !processedBatches_app, !errorLogs_app.
  rewrite otherBatches_reads, otherBatches_processed, otherBatches_errorLogs.
  rewrite processedBatches_ProcessBatch, issuedReads_ProcessBatch.
  destruct (observe_rejected (Dapi:=Dapi)
              (filter (fun i => is_Some (readDapis_error reg (i * B) B)) indices))
    as (-> & -> & _ & ->).
  destruct (observe_processed
              (page reg B
                 <$> filter (fun i => readDapis_error reg (i * B) B = None) indices))
    as (_ & ->).
  rewrite !app_nil_r. repeat split.
Qed.



(** X14: A registry with fewer dAPIs than one batch holds, the empty registry
    included: [range] counts down from 1, so besides the first page the
    cycle requests the page at offset [B], which is empty, and processes
    it. *)
Theorem runUpdateFeed_short_registry {Dapi State} (reg : Registry Dapi)
    (firstBatchDuration : Q) (chain : Chain) (s : State) :
  let B := dataFeedBatchSize chain in
  Z.of_nat (length (dapis reg)) < B ->
  readDapis_error reg 0 B = None ->
  readDapis_error reg B B = None ->
  dapisCount_error reg = None ->
  let evs := (runUpdateFeed reg firstBatchDuration chain s).2 in
  issuedReads evs = [(0, B); (B, B)] /\
  processedBatches evs = [dapis reg; []].
Proof.
  intros B Hshort Hfirst Hsecond Hcount evs. subst evs.
  rewrite (runUpdateFeed_trace reg firstBatchDuration chain s Hfirst Hcount).
  fold B.
  destruct B as [|p|p] eqn:EB; try lia.
  rewrite range_batches by lia.
  destruct (Z.ltb_spec (Z.of_nat (length (dapis reg))) (Zpos p)); [|lia].
  change (seqZ 1 1) with [1].
  cbn [filter list_filter]. change (1 * Zpos p) with (Zpos p).
  destruct (decide (readDapis_error reg (Zpos p) (Zpos p) = None))
    as [_|Hno]; [|contradiction].
  destruct (decide (is_Some (readDapis_error reg (Zpos p) (Zpos p))))
    as [[e He]|_]; [congruence|].
  cbn. split; [reflexivity|].
  unfold page. change (Z.to_nat (0 * Zpos p)) with 0%nat.
  change (1 * Zpos p) with (Zpos p).
  rewrite drop_0, take_ge by lia. rewrite drop_ge by lia.
  rewrite take_nil. reflexivity.
Qed.

Lemma runUpdateFeed_short_registry_witness :
  let reg : Registry string :=
    {| dapis := []; readDapis_error := fun _ _ => None;
       dapisCount_error := None |} in
  let evs := (runUpdateFeed reg 3 chain_batch2 tt).2 in
  issuedReads evs = [(0, 2); (2, 2)] /\ processedBatches evs = [[]; []].
Proof.
  intros reg evs.
  apply (runUpdateFeed_short_registry reg 3 chain_batch2 tt);
    [simpl; lia | reflexivity | reflexivity | reflexivity].
Defined.

Lemma page_nonempty {Dapi} (reg : Registry Dapi) (B i : Z) :
  0 < B -> 0 <= i -> i * B < Z.of_nat (length (dapis reg)) ->
  page reg B i <> [].
Proof.
  intros HB Hi Hlt Hnil. apply (f_equal length) in Hnil.
  unfold page in Hnil. rewrite length_take, length_drop in Hnil.
  simpl in Hnil. nia.
Qed.

(** X15: A registry with at least one full batch: the cycle requests exactly
    ceil(totalCount / B) pages, and no batch it processes is empty, whether
    or not reads of later batches fail. *)
Theorem runUpdateFeed_full_registry {Dapi State} (reg : Registry Dapi)
    (firstBatchDuration : Q) (chain : Chain) (s : State) :
  let B := dataFeedBatchSize chain in
  let totalCount := Z.of_nat (length (dapis reg)) in
  1 <= B <= totalCount ->
  readDapis_error reg 0 B = None ->
  dapisCount_error reg = None ->
  let evs := (runUpdateFeed reg firstBatchDuration chain s).2 in
  Z.of_nat (length (issuedReads evs)) = (totalCount + B - 1) / B /\
  Forall (fun batch => batch <> []) (processedBatches evs).
Proof.
  intros B totalCount HB Hfirst Hcount evs.
  destruct (runUpdateFeed_observed reg firstBatchDuration chain s
              Hfirst Hcount) as (Hreads & Hproc & _).
  fold B totalCount evs in Hreads, Hproc. rewrite Hreads, Hproc.
  clear Hreads Hproc evs.
  destruct B as [|p|p] eqn:EB; try lia.
  rewrite range_batches by lia.
  destruct (Z.ltb_spec totalCount (Zpos p)); [lia|].
  set (n := (totalCount + Zpos p - 1) / Zpos p).
  assert (Hn : 1 <= n /\ (n - 1) * Zpos p < totalCount).
  { subst n.
    pose proof (Z.div_mod (totalCount + Zpos p - 1) (Zpos p) ltac:(lia)).
    pose proof (Z.mod_pos_bound (totalCount + Zpos p - 1) (Zpos p) ltac:(lia)).
    split; [apply Z.div_le_lower_bound; lia | nia]. }
  split.
  - rewrite length_fmap. simpl. rewrite length_seqZ. lia.
  - constructor.
    + apply page_nonempty; lia.
    + apply Forall_fmap, Forall_forall. intros i Hi.
      apply list_elem_of_filter in Hi as [_ Hi].
      apply elem_of_seqZ in Hi. simpl. apply page_nonempty; nia.
Qed.

Lemma runUpdateFeed_full_registry_witness :
  let evs := (runUpdateFeed registry_up 3 chain_batch2 tt).2 in
  Z.of_nat (length (issuedReads evs)) = 3 /\
  Forall (fun batch => batch <> []) (processedBatches evs).
Proof.
  intros evs.
  apply (runUpdateFeed_full_registry registry_up 3 chain_batch2 tt);
    [simpl; lia | reflexivity | reflexivity].
Defined.





End CycleMore.

(** * Properties of the loop start-up *)

Section LoopStart.
Import DataFetcher FeedLoops.




End LoopStart.

(** * Further properties of the signed-API fetcher *)

Section Uniq.

Lemma uniq_elem_of (l : list string) (x : string) : x ∈ Lodash.uniq l <-> x ∈ l.
Proof.
  induction l as [|y l IH]; [reflexivity|]. simpl.
  rewrite !elem_of_cons, list_elem_of_filter, IH.
  destruct (decide (x = y)); tauto.
Qed.

Lemma uniq_NoDup (l : list string) : NoDup (Lodash.uniq l).
Proof.
  induction l as [|y l IH]; simpl; [constructor|].
  constructor.
  - intros [Hne _]%list_elem_of_filter. apply Hne. reflexivity.
  - apply NoDup_filter, IH.
Qed.

(** Counting the elements of [uniq l] that satisfy a predicate is counting
    the distinct elements of [l] that do. *)
Lemma uniq_filter_size (P : string -> Prop) `{!forall x, Decision (P x)}
    (l : list string) :
  length (filter P (Lodash.uniq l))
  = size (filter P (list_to_set l : gset string)).
Proof.
  rewrite <- (size_list_to_set (C:=gset string) (filter P (Lodash.uniq l)))
    by apply NoDup_filter, uniq_NoDup.
  f_equal. apply set_eq. intros x.
  rewrite elem_of_list_to_set, list_elem_of_filter, uniq_elem_of.
  rewrite elem_of_filter, elem_of_list_to_set. reflexivity.
Qed.

End Uniq.

Section FetcherMore.
Import DataFetcher.
Context {DataStore SignedData : Type}.
Variables
  (airnode templateId : SignedData -> string)
  (response : string -> result (list SignedData))
  (getBeaconsForActiveDapis : State -> list Beacon)
  (setStoreDataPoint : SignedData -> DataStore -> DataStore)
  (purgeInactiveDataPoints : State -> DataStore -> DataStore).

Abbreviation World' := (@World DataStore).
Abbreviation run' :=
  (runDataFetcher airnode templateId response getBeaconsForActiveDapis
     setStoreDataPoint purgeInactiveDataPoints).
Abbreviation fetch' :=
  (fetchUrl airnode templateId response setStoreDataPoint).

(** The world once the timer step of a run is done. *)
Let registered (w : World') : World' :=
  let w := logger Debug "Running data fetcher" w in
  match dataFetcherInterval (state w) with
  | None =>
      let '(h, w) :=
        setInterval (signedDataFetchInterval (state w) * 1000)%Q w in
      updateState
        (fun draft =>
           {| signedDataFetchInterval := signedDataFetchInterval draft;
              signedApiUrlStore := signedApiUrlStore draft;
              dataFetcherInterval := Some h |})
        w
  | Some _ => w
  end.

Lemma runDataFetcher_phases (w : World') :
  run' w
  = updateStore
      (purgeInactiveDataPoints
         (state (foldl (fetch' (getBeaconsForActiveDapis (state (registered w))))
                   (logger Debug "Fetching data from signed APIs" (registered w))
                   (Lodash.uniq (storeUrls (state w))))))
      (foldl (fetch' (getBeaconsForActiveDapis (state (registered w))))
         (logger Debug "Fetching data from signed APIs" (registered w))
         (Lodash.uniq (storeUrls (state w)))).
Proof. reflexivity. Qed.

Lemma registered_store (w : World') :
  dataStore (registered w) = dataStore w /\
  logged (registered w) = logged w ++ [LogEntry Debug "Running data fetcher"].
Proof.
  unfold registered. simpl.
  destruct (dataFetcherInterval (state w)); split; reflexivity.
Qed.

Lemma runDataFetcher_state (w : World') : state (run' w) = state (registered w).
Proof.
  rewrite runDataFetcher_phases. simpl.
  pose proof (fetchUrls_control airnode templateId response setStoreDataPoint
                (getBeaconsForActiveDapis (state (registered w)))
                (Lodash.uniq (storeUrls (state w)))
                (logger Debug "Fetching data from signed APIs" (registered w)))
    as Hc.
  unfold control in Hc. simpl in Hc.
  exact (f_equal (fun c => c.1.1) Hc).
Qed.

Lemma registered_timers (w : World') h :
  dataFetcherInterval (state w) = Some h ->
  state (registered w) = state w /\ timers (registered w) = timers w.
Proof. intros Hh. unfold registered. simpl. rewrite Hh. split; reflexivity. Qed.

(** X18: [stopDataFetcher] cancels the timer whose handle is recorded and leaves
    the handle in process state: a later run finds the handle, registers no
    timer, and the fetcher stays stopped.  Without a recorded handle
    [stopDataFetcher] changes nothing. *)
Theorem stopDataFetcher_stays_stopped (w : World') :
  (forall h, dataFetcherInterval (state w) = Some h ->
     let w' := run' (stopDataFetcher w) in
     dataFetcherInterval (state w') = Some h /\
     timers w' = filter (fun t => handle t <> h) (timers w) /\
     forall t, t ∈ timers w' -> handle t <> h) /\
  (dataFetcherInterval (state w) = None -> stopDataFetcher w = w).
Proof.
  split.
  - intros h Hh w'. subst w'.
    assert (Hstop : dataFetcherInterval (state (stopDataFetcher w)) = Some h).
    { unfold stopDataFetcher. rewrite Hh. exact Hh. }
    destruct (runDataFetcher_registered airnode templateId response
                getBeaconsForActiveDapis setStoreDataPoint
                purgeInactiveDataPoints (stopDataFetcher w) h Hstop)
      as [Hs Ht].
    rewrite Hs, Ht. split; [exact Hstop|].
    unfold stopDataFetcher. rewrite Hh. simpl. split; [reflexivity|].
    intros t Hin. apply list_elem_of_filter in Hin as [Hne _]. exact Hne.
  - intros Hh. unfold stopDataFetcher. rewrite Hh. reflexivity.
Qed.

(** X19: Whatever the signed APIs answer, a run writes into the data-point store
    only points that match an active beacon by airnode address and template
    id, and then purges: a property of the store that such writes and the
    purge preserve holds after the run if it held before. *)
Theorem runDataFetcher_writes_active_only (P : DataStore -> Prop) (w : World') :
  (forall signedData d,
     matchesActiveBeacon airnode templateId
       (getBeaconsForActiveDapis (state (run' w))) signedData ->
     P d -> P (setStoreDataPoint signedData d)) ->
  (forall d, P d -> P (purgeInactiveDataPoints (state (run' w)) d)) ->
  P (dataStore w) ->
  P (dataStore (run' w)).
Proof.
  rewrite runDataFetcher_state. intros Hset Hpurge HP.
  rewrite runDataFetcher_phases. simpl.
  set (activeBeacons := getBeaconsForActiveDapis (state (registered w))) in *.
  assert (Hfold : forall urls (w0 : World'),
            state w0 = state (registered w) -> P (dataStore w0) ->
            state (foldl (fetch' activeBeacons) w0 urls) = state (registered w)
            /\ P (dataStore (foldl (fetch' activeBeacons) w0 urls))).
  { induction urls as [|u urls IH]; intros w0 Hs0 HP0; [auto|].
    simpl. apply IH.
    - pose proof (fetchUrl_control airnode templateId response
                    setStoreDataPoint activeBeacons w0 u) as Hc.
      unfold control in Hc. rewrite <- Hs0.
      exact (f_equal (fun c => c.1.1) Hc).
    - unfold fetchUrl. destruct (callSignedDataApi response u) as [payload|e].
      + assert (Hl : Forall (matchesActiveBeacon airnode templateId activeBeacons)
                       (filter
                          (fun signedData =>
                             Exists (fun beacon =>
                                       airnodeAddress beacon = airnode signedData /\
                                       beaconTemplateId beacon = templateId signedData)
                                    activeBeacons) payload)).
        { apply Forall_forall. intros x Hx.
          apply list_elem_of_filter in Hx as [Hx _]. exact Hx. }
        revert Hl.
        generalize (filter
          (fun signedData =>
             Exists (fun beacon =>
                       airnodeAddress beacon = airnode signedData /\
                       beaconTemplateId beacon = templateId signedData)
                    activeBeacons) payload).
        intros l Hl. revert w0 Hs0 HP0.
        induction Hl as [|x l Hx Hl IHl]; intros w0 Hs0 HP0; simpl; [exact HP0|].
        apply IHl; [exact Hs0|]. simpl. apply Hset; assumption.
      + exact HP0. }
  destruct (Hfold (Lodash.uniq (storeUrls (state w)))
              (logger Debug "Fetching data from signed APIs" (registered w)))
    as [Hs HP'].
  - reflexivity.
  - simpl. rewrite (proj1 (registered_store w)). exact HP.
  - rewrite Hs. apply Hpurge. exact HP'.
Qed.

Lemma storePoints_logged (points : list SignedData) (w0 : World') :
  logged (foldl (fun w element => updateStore (setStoreDataPoint element) w)
            w0 points)
  = logged w0.
Proof.
  revert w0. induction points as [|x points IH]; intros w0; simpl; [done|].
  rewrite IH. reflexivity.
Qed.

Lemma callSignedDataApi_is_ok (u : string) :
  is_ok (callSignedDataApi response u) = is_ok (response u).
Proof. unfold callSignedDataApi. destruct (response u); reflexivity. Qed.

Lemma fetchUrls_logged activeBeacons (urls : list string) (w0 : World') :
  logged (foldl (fetch' activeBeacons) w0 urls)
  = logged w0
    ++ ((fun _ => LogEntry Warn "Failed to fetch data from signed API")
          <$> filter (fun u => is_ok (response u) = false) urls).
Proof.
  revert w0. induction urls as [|u urls IH]; intros w0; simpl.
  - by rewrite app_nil_r.
  - rewrite IH, filter_cons. pose proof (callSignedDataApi_is_ok u) as Hok.
    unfold fetchUrl at 1.
    destruct (callSignedDataApi response u) as [payload|e]; simpl in Hok.
    + rewrite storePoints_logged.
      rewrite decide_False by (rewrite <- Hok; discriminate). reflexivity.
    + rewrite decide_True by (symmetry; exact Hok).
      simpl. rewrite <- app_assoc. reflexivity.
Qed.

Lemma fetchUrls_all_fail activeBeacons (urls : list string) (w0 : World') :
  (forall u, u ∈ urls -> is_ok (response u) = false) ->
  dataStore (foldl (fetch' activeBeacons) w0 urls) = dataStore w0.
Proof.
  revert w0. induction urls as [|u urls IH]; intros w0 Hfail; simpl; [done|].
  rewrite IH by (intros u' Hu'; apply Hfail; right; exact Hu').
  pose proof (callSignedDataApi_is_ok u) as Hok.
  rewrite (Hfail u) in Hok by left.
  unfold fetchUrl. destruct (callSignedDataApi response u); [discriminate|].
  reflexivity.
Qed.

Lemma warnings_app (l1 l2 : list log_entry) :
  warnings (l1 ++ l2) = warnings l1 ++ warnings l2.
Proof. apply omap_app. Qed.

Lemma warnings_warn {A} (l : list A) (m : string) :
  warnings ((fun _ => LogEntry Warn m) <$> l) = replicate (length l) m.
Proof. induction l as [|x l IH]; [done|]. cbn. f_equal. exact IH. Qed.

(** X20: A run logs one warning per distinct URL of the store whose call fails,
    however often the URL occurs in the store, and no other warning; so a
    failing call does not stop the calls that follow it. *)
Theorem runDataFetcher_warnings (w : World') :
  warnings (logged (run' w))
  = warnings (logged w)
    ++ replicate
         (size (filter (fun u => is_ok (response u) = false)
                       (list_to_set (storeUrls (state w)) : gset string)))
         "Failed to fetch data from signed API".
Proof.
  rewrite runDataFetcher_phases. simpl.
  rewrite fetchUrls_logged. simpl.
  rewrite (proj2 (registered_store w)).
  rewrite !warnings_app, warnings_warn, uniq_filter_size. simpl.
  rewrite !app_nil_r. reflexivity.
Qed.

(** X21: When the call to every URL of the store fails, a run writes no data
    point: the data-point store is only purged. *)
Theorem runDataFetcher_all_calls_fail (w : World') :
  (forall u, u ∈ storeUrls (state w) -> is_ok (response u) = false) ->
  dataStore (run' w)
  = purgeInactiveDataPoints (state (run' w)) (dataStore w).
Proof.
  intros Hfail. rewrite runDataFetcher_state.
  rewrite runDataFetcher_phases. simpl.
  rewrite fetchUrls_all_fail
    by (intros u Hu; apply Hfail, uniq_elem_of; exact Hu).
  simpl. rewrite (proj1 (registered_store w)).
  pose proof (fetchUrls_control airnode templateId response setStoreDataPoint
                (getBeaconsForActiveDapis (state (registered w)))
                (Lodash.uniq (storeUrls (state w)))
                (logger Debug "Fetching data from signed APIs" (registered w)))
    as Hc.
  unfold control in Hc. simpl in Hc.
  pose proof (f_equal (fun c => c.1.1) Hc) as Hs. simpl in Hs.
  rewrite Hs. reflexivity.
Qed.

End FetcherMore.

Section FetcherMoreWitness.
Import DataFetcher.

Lemma stopDataFetcher_stays_stopped_witness :
  let run := runDataFetcher (fun _ : unit => "") (fun _ => "")
               (fun _ => Ok []) (fun _ => []) (fun _ d => d) (fun _ d => d) in
  let running := run world_at_start in
  timers running = [{| handle := 1%nat; period_ms := (10 * 1000)%Q |}] /\
  timers (run (stopDataFetcher running)) = [] /\
  dataFetcherInterval (state (run (stopDataFetcher running))) = Some 1%nat.
Proof.
  intros run running. split; [reflexivity|].
  destruct (proj1 (stopDataFetcher_stays_stopped
                     (DataStore:=unit) (SignedData:=unit)
                     (fun _ => "") (fun _ => "") (fun _ => Ok [])
                     (fun _ => []) (fun _ d => d) (fun _ d => d) running)
              1%nat eq_refl) as (Hhandle & Htimers & _).
  split; [exact (eq_trans Htimers eq_refl) | exact Hhandle].
Defined.

Lemma runDataFetcher_writes_active_only_witness :
  let w : @World (list (string * string)) :=
    {| state := state world_at_start; timers := []; nextHandle := 1;
       dataStore := []; logged := [] |} in
  Forall (fun point => point = ("0xA1", "0xT1"))
    (dataStore
       (runDataFetcher fst snd
          (fun _ => Ok [("0xA1", "0xT1"); ("0xB2", "0xT1")])
          (fun _ => [{| airnodeAddress := "0xA1"; beaconTemplateId := "0xT1" |}])
          cons (fun _ d => d) w)).
Proof.
  intros w.
  apply (runDataFetcher_writes_active_only
           fst snd (fun _ => Ok [("0xA1", "0xT1"); ("0xB2", "0xT1")])
           (fun _ => [{| airnodeAddress := "0xA1"; beaconTemplateId := "0xT1" |}])
           cons (fun _ d => d)
           (Forall (fun point => point = ("0xA1", "0xT1"))) w).
  - intros [a t] d Hactive Hd. constructor; [|exact Hd].
    apply Exists_cons in Hactive as [[Ha Ht]|Hnil].
    + simpl in Ha, Ht. subst. reflexivity.
    + apply Exists_nil in Hnil. contradiction.
  - intros d Hd. exact Hd.
  - constructor.
Defined.

Lemma runDataFetcher_all_calls_fail_witness :
  let run := runDataFetcher (fun _ : unit => "") (fun _ => "")
               (fun _ => Throw (Error "timeout")) (fun _ => [])
               (fun _ (d : nat) => S d) (fun _ d => d) in
  let w : @World nat :=
    {| state := state world_at_start; timers := []; nextHandle := 1;
       dataStore := 7%nat; logged := [] |} in
  dataStore (run w) = 7%nat.
Proof.
  intros run w.
  apply (runDataFetcher_all_calls_fail
           (fun _ : unit => "") (fun _ => "")
           (fun _ => Throw (Error "timeout")) (fun _ => [])
           (fun _ (d : nat) => S d) (fun _ d => d) w).
  intros u _. reflexivity.
Defined.

End FetcherMoreWitness.


(** * Further properties of the value and name codecs *)

Section Codecs.
Import Constants Ethers Utils DapiName.

Lemma dropZeros_zeros (n : nat) (l : list Byte.byte) :
  dropZeros (replicate n Byte.x00 ++ l) = dropZeros l.
Proof. induction n as [|n IH]; [reflexivity|]. simpl. exact IH. Qed.

Lemma stripTrailingZeros_padded (name : list Byte.byte) (n : nat) :
  last name <> Some Byte.x00 ->
  stripTrailingZeros (name ++ replicate n Byte.x00) = name.
Proof.
  intros Hlast. unfold stripTrailingZeros.
  rewrite reverse_app, reverse_replicate, dropZeros_zeros.
  destruct (reverse name) as [|b rest] eqn:Hrev.
  - apply (f_equal reverse) in Hrev. rewrite reverse_involutive in Hrev.
    rewrite Hrev. reflexivity.
  - assert (Hname : name = reverse rest ++ [b]).
    { apply (f_equal reverse) in Hrev. rewrite reverse_involutive in Hrev.
      rewrite Hrev, reverse_cons. reflexivity. }
    simpl. destruct (Byte.eqb b Byte.x00) eqn:Hb.
    + exfalso. apply Hlast. rewrite Hname, last_snoc.
      apply Byte.byte_dec_bl in Hb. rewrite Hb. reflexivity.
    + rewrite reverse_cons. symmetry. exact Hname.
Qed.

(** X23: Name round trip: a dAPI name of at most 31 bytes that does not end in a
    zero byte is encoded to exactly 32 bytes and decoded back to itself; a
    name of more than 31 bytes is rejected by the encoder. *)
Theorem decodeDapiName_encodeDapiName (name : list Byte.byte) :
  ((length name <= 31)%nat -> last name <> Some Byte.x00 ->
   exists encoded,
     encodeDapiName name = Ok encoded /\ length encoded = 32%nat /\
     decodeDapiName encoded = Ok name) /\
  ((31 < length name)%nat ->
   encodeDapiName name
   = Throw (Error "bytes32 string must be less than 32 bytes")).
Proof.
  split.
  - intros Hlen Hlast. unfold encodeDapiName.
    destruct (Nat.ltb_spec 31 (length name)); [lia|].
    eexists. split; [reflexivity|].
    assert (Hlen32 : length (name ++ replicate (32 - length name) Byte.x00)
                     = 32%nat).
    { rewrite length_app, length_replicate. lia. }
    split; [exact Hlen32|].
    unfold decodeDapiName. rewrite Hlen32. simpl negb. cbv iota.
    rewrite lookup_app_r by lia. rewrite lookup_replicate_2 by lia.
    simpl Byte.eqb. cbv iota.
    rewrite take_app_ge by lia. rewrite take_replicate.
    rewrite stripTrailingZeros_padded by exact Hlast. reflexivity.
  - intros Hlong. unfold encodeDapiName.
    destruct (Nat.ltb_spec 31 (length name)); [reflexivity | lia].
Qed.

Lemma decodeDapiName_encodeDapiName_witness :
  let name := [Byte.x42; Byte.x54; Byte.x43; Byte.x2f;
               Byte.x55; Byte.x53; Byte.x44] in
  exists encoded,
    encodeDapiName name = Ok encoded /\ length encoded = 32%nat /\
    decodeDapiName encoded = Ok name.
Proof.
  intros name.
  apply (proj1 (decodeDapiName_encodeDapiName name)).
  - simpl. lia.
  - discriminate.
Defined.

End Codecs.
